(** * people/models.py: the Person model and its kinship queries

    A shallow embedding of the [Person] class of [people/models.py]: the
    table of person rows, the queries a method sends to it, the dictionary
    and set the traversals build, and the exceptions a call can end in. *)

From stdpp Require Import gmap strings list fin_maps sorting.

Open Scope string_scope.
Open Scope list_scope.
Open Scope Z_scope.

(** ** Exceptions and results *)

(** The exceptions a method of [Person] can end in.  [RuntimeError] is the
    interpreter's "maximum recursion depth exceeded", [DoesNotExist] what
    following a foreign key to a missing row raises, [Exception] any other
    exception, by the name of its class, that a function the module imports
    may raise. *)
Inductive exn : Type :=
| AttributeError (attr : string)
| KeyError
| ValidationError (msg : string)
| DoesNotExist
| RuntimeError
| Exception (class : string).

Inductive result (A : Type) : Type :=
| OK (a : A)
| Raise (e : exn).
Arguments OK {A} a.
Arguments Raise {A} e.

#[global] Instance result_ret : MRet result := λ A a, OK a.
#[global] Instance result_bind : MBind result := λ A B f m,
  match m with
  | OK a => f a
  | Raise e => Raise e
  end.

(** A loop [for x in l: acc = f(acc, x)] whose body may raise. *)
Fixpoint for_each {A B : Type} (f : B → A → result B) (l : list A) (acc : B)
  : result B :=
  match l with
  | [] => OK acc
  | x :: l' => acc' ← f acc x; for_each f l' acc'
  end.

(** ** The data model *)

(** [datetime.date]. *)
Record date : Type := Date { year : Z; month : Z; day : Z }.

(** The choices of the [gender] column, ['M'] and ['F']; [children] tests
    for ['F'] and takes the other branch otherwise. *)
Inductive Gender : Type := Male | Female.

(** A row of the person table.  [pk] is the [id] column; [mother] and
    [father] hold the foreign keys ([None] for NULL). *)
Record Person : Type := {
  pk : Z;
  forename : string;
  middle_names : string;
  surname : string;
  maiden_name : string;
  gender : Gender;
  date_of_birth : option date;
  date_of_death : option date;
  deceased : bool;
  mother : option Z;
  father : option Z;
  notes : string
}.

#[global] Instance date_eq_dec : EqDecision date.
Proof. solve_decision. Defined.
#[global] Instance Gender_eq_dec : EqDecision Gender.
Proof. solve_decision. Defined.
#[global] Instance Person_eq_dec : EqDecision Person.
Proof. solve_decision. Defined.

(** The person table, in the order the database scans it. *)
Abbreviation Store := (list Person).

(** [Person.objects.get(pk=k)]. *)
Definition get (g : Store) (k : Z) : option Person :=
  List.find (λ r, bool_decide (pk r = k)) g.

(** Reading a foreign-key attribute ([self.mother], [self.father]): [None]
    when the column is NULL, the referenced row otherwise. *)
Definition fetch (g : Store) (fk : option Z) : result (option Person) :=
  match fk with
  | None => OK None
  | Some k =>
      match get g k with
      | Some r => OK (Some r)
      | None => Raise DoesNotExist
      end
  end.

(** ** Ordering by date of birth *)

Definition date_le (a b : date) : Prop :=
  year a < year b ∨
  (year a = year b ∧ (month a < month b ∨ (month a = month b ∧ day a ≤ day b))).

(** The order of [order_by('date_of_birth')], NULL dates first. *)
Definition born_before (p q : Person) : Prop :=
  match date_of_birth p, date_of_birth q with
  | None, _ => True
  | Some _, None => False
  | Some a, Some b => date_le a b
  end.

#[global] Instance date_le_dec a b : Decision (date_le a b).
Proof. unfold date_le. apply _. Defined.
#[global] Instance born_before_dec p q : Decision (born_before p q).
Proof. unfold born_before. destruct (date_of_birth p), (date_of_birth q); apply _. Defined.

Definition order_by_date_of_birth (l : list Person) : list Person :=
  merge_sort born_before l.

(** ** Person.age *)

Definition age (today : date) (self : Person) : option Z :=
  match date_of_birth self with
  | None => None
  | Some birth =>
      if deceased self && negb (bool_decide (is_Some (date_of_death self)))
      then None
      else
        match (if deceased self then date_of_death self else Some today) with
        | None => None
        | Some end_ =>
            let years := year end_ - year birth in
            if bool_decide (month end_ < month birth) ||
               (bool_decide (month end_ = month birth) &&
                bool_decide (day end_ < day birth))
            then Some (years - 1)
            else Some years
        end
  end.

(** ** Person.clean *)

(** [clean] reads [self] and writes nothing; the object and the table are
    threaded through to make that visible. *)
Definition clean (self : Person) (db : Store) : result unit * Person * Store :=
  if bool_decide (is_Some (date_of_death self)) && negb (deceased self)
  then (Raise (ValidationError "Cannot specify date of death for living person."),
        self, db)
  else (OK (), self, db).

(** ** Person.siblings *)

(** The rows selected by
    [~Q(id=self.id), Q(~Q(father=None), father=f) | Q(~Q(mother=None), mother=m)]. *)
Definition sibling_query (self_id : Z) (f m : option Person) (r : Person) : Prop :=
  pk r ≠ self_id ∧
  ((father r ≠ None ∧ father r = pk <$> f) ∨
   (mother r ≠ None ∧ mother r = pk <$> m)).

#[global] Instance sibling_query_dec i f m r : Decision (sibling_query i f m r).
Proof. unfold sibling_query. apply _. Defined.

Definition siblings (g : Store) (self : Person) : result (list Person) :=
  f ← fetch g (father self);
  m ← fetch g (mother self);
  OK (order_by_date_of_birth (filter (sibling_query (pk self) f m) g)).

(** ** Person.children and Person.descendants *)

(** [children_of_mother] and [children_of_father] are the reverse managers
    of the two foreign keys. *)
Definition children_of_mother (g : Store) (self : Person) : list Person :=
  filter (λ r, mother r = Some (pk self)) g.
Definition children_of_father (g : Store) (self : Person) : list Person :=
  filter (λ r, father r = Some (pk self)) g.

Definition children (g : Store) (self : Person) : list Person :=
  let offspring :=
    match gender self with
    | Female => children_of_mother g self
    | Male => children_of_father g self
    end in
  order_by_date_of_birth offspring.

(** [limit] is the number of nested calls of a traversal the interpreter
    still allows (its recursion limit, less the depth of the caller); a call
    made when none is left raises [RuntimeError]. *)
Fixpoint descendants (limit : nat) (g : Store) (self : Person)
  : result (list Person) :=
  match limit with
  | O => Raise RuntimeError
  | S limit' =>
      let descendants0 : list Person := [] in
      let children := children g self in
      let descendants1 := descendants0 ++ children in
      for_each (λ acc child,
                  sub ← descendants limit' g child;
                  OK (acc ++ sub))
               children descendants1
  end.

(** ** The distance dictionary *)

(** A Python dictionary keyed by person objects, which hash and compare by
    primary key: an entry holds the key object and the distance. *)
Abbreviation dict := (gmap Z (Person * Z)).

(** [d[k] = v]: a key already present keeps its key object. *)
Definition dict_setitem (d : dict) (k : Person) (v : Z) : dict :=
  match d !! pk k with
  | Some (k0, _) => <[pk k := (k0, v)]> d
  | None => <[pk k := (k, v)]> d
  end.

(** [d.update(other)]: the values of [other] win. *)
Definition dict_update (d other : dict) : dict :=
  union_with (λ new old, Some (old.1, new.2)) other d.

(** [d.keys()], in the order of the map; Python fixes none. *)
Definition keys (d : dict) : list Person :=
  (λ kv, kv.2.1) <$> map_to_list d.

(** ** Person._ancestor_distances *)

Fixpoint _ancestor_distances (limit : nat) (g : Store) (self : Person)
    (offset : Z) : result dict :=
  match limit with
  | O => Raise RuntimeError
  | S limit' =>
      let ancestors : dict := ∅ in
      m ← fetch g (mother self);
      ancestors ←
        match m with
        | Some mother =>
            let ancestors := dict_setitem ancestors mother (offset + 1) in
            sub ← _ancestor_distances limit' g mother (offset + 1);
            OK (dict_update ancestors sub)
        | None => OK ancestors
        end;
      f ← fetch g (father self);
      match f with
      | Some father =>
          let ancestors := dict_setitem ancestors father (offset + 1) in
          sub ← _ancestor_distances limit' g father (offset + 1);
          OK (dict_update ancestors sub)
      | None => OK ancestors
      end
  end.

(** ** Person.ancestors *)

(** The methods the class body of [Person] defines that return a distance
    dictionary, under the names it defines them. *)
Definition Person_distance_methods
  : list (string * (nat → Store → Person → Z → result dict)) :=
  [("_ancestor_distances", _ancestor_distances)].

(** Attribute lookup [self.<name>] among them. *)
Definition getattr_distances (name : string)
  : option (nat → Store → Person → Z → result dict) :=
  snd <$> List.find (λ m, bool_decide (m.1 = name)) Person_distance_methods.

(** [return self.ancestor_distances().keys()]. *)
Definition ancestors (limit : nat) (g : Store) (self : Person)
  : result (list Person) :=
  match getattr_distances "ancestor_distances" with
  | None => Raise (AttributeError "ancestor_distances")
  | Some ancestor_distances =>
      d ← ancestor_distances limit g self 0;
      OK (keys d)
  end.

(** ** Person.relatives *)

(** [sets.Set] of person objects, keyed like the dictionary. *)
Abbreviation pset := (gmap Z Person).

Definition Set_add (s : pset) (p : Person) : pset :=
  match s !! pk p with
  | Some _ => s
  | None => <[pk p := p]> s
  end.

(** [s.update(l)], and [Set(l)] from the empty set. *)
Definition Set_update (s : pset) (l : list Person) : pset :=
  foldl Set_add s l.

(** [s.remove(p)]. *)
Definition Set_remove (s : pset) (p : Person) : result pset :=
  match s !! pk p with
  | Some _ => OK (delete (pk p) s)
  | None => Raise KeyError
  end.

(** Iterating over the set, in the order of the map. *)
Definition Set_elements (s : pset) : list Person :=
  snd <$> map_to_list s.

(** [p.father and p.mother], as a truth value. *)
Definition father_and_mother (g : Store) (p : Person) : result bool :=
  f ← fetch g (father p);
  match f with
  | None => OK false
  | Some _ =>
      m ← fetch g (mother p);
      OK (bool_decide (is_Some m))
  end.

(** [[p for p in l if not (p.father and p.mother)]]. *)
Fixpoint without_father_and_mother (g : Store) (l : list Person)
  : result (list Person) :=
  match l with
  | [] => OK []
  | p :: l' =>
      b ← father_and_mother g p;
      rest ← without_father_and_mother g l';
      OK (if (b : bool) then rest else p :: rest)
  end.

(** Line 117: the comprehension, [or [self]]. *)
Definition root_ancestors (g : Store) (self : Person) (ancestors : list Person)
  : result (list Person) :=
  roots ← without_father_and_mother g ancestors;
  OK (match roots with
      | [] => [self]
      | _ :: _ => roots
      end).

Section Relatives.

(** [people.relations.describe_relative], which the module imports. *)
Variable describe_relative : Store → Person → Person → string.

(** The body of [relatives] below its first statement, from the value
    [ancestors] that statement binds. *)
Definition relatives_from (limit : nat) (g : Store) (self : Person)
    (ancestors : list Person) : result (list (Person * string)) :=
  root_ancestors ← root_ancestors g self ancestors;
  let relatives := Set_update ∅ root_ancestors in
  relatives ←
    for_each (λ relatives ancestor,
                ds ← descendants limit g ancestor;
                OK (Set_update relatives ds))
             root_ancestors relatives;
  relatives ← Set_remove relatives self;
  let annotated_relatives :=
    (λ relative, (relative, describe_relative g self relative))
      <$> Set_elements relatives in
  OK annotated_relatives.

Definition relatives (limit : nat) (g : Store) (self : Person)
  : result (list (Person * string)) :=
  ancestors ← ancestors limit g self;
  relatives_from limit g self ancestors.

End Relatives.

(** ** Person.name *)

(** [u" (n\xe9e "]: the code point 233 is the e with an acute accent. *)
Definition nee : string := " (n" +:+ String (Ascii.ascii_of_nat 233) "e ".

Definition name (self : Person) (use_middle_names use_maiden_name : bool)
  : string :=
  let name :=
    if use_middle_names && negb (bool_decide (middle_names self = ""))
    then forename self +:+ " " +:+ middle_names self
    else forename self in
  if negb (bool_decide (maiden_name self = ""))
  then name +:+ " " +:+
       (if use_maiden_name then maiden_name self
        else surname self +:+ nee +:+ maiden_name self +:+ ")")
  else name +:+ " " +:+ surname self.

(** [Person.__unicode__]: [self.name()] with the default flags. *)
Definition Person_unicode (self : Person) : string := name self true false.

(** ** Marriage and Person.spouses *)

(** A row of the marriage table; both foreign keys are required. *)
Record Marriage : Type := {
  husband : Z;
  wife : Z;
  wedding_date : option date;
  divorce_date : option date
}.

(** Reading a required foreign key ([m.husband], [m.wife]). *)
Definition related (g : Store) (k : Z) : result Person :=
  match get g k with
  | Some r => OK r
  | None => Raise DoesNotExist
  end.

(** A comprehension [[f(x) for x in l]] whose element expression may
    raise. *)
Fixpoint comprehension {A B : Type} (f : A → result B) (l : list A)
  : result (list B) :=
  match l with
  | [] => OK []
  | x :: l' => y ← f x; rest ← comprehension f l'; OK (y :: rest)
  end.

(** The reverse managers of the marriage keys: [husband_of] is the related
    name of the [wife] key and [wife_of] that of the [husband] key. *)
Definition husband_of (ms : list Marriage) (self : Person) : list Marriage :=
  filter (λ m, wife m = pk self) ms.
Definition wife_of (ms : list Marriage) (self : Person) : list Marriage :=
  filter (λ m, husband m = pk self) ms.

Definition spouses (ms : list Marriage) (g : Store) (self : Person)
  : result (list Person) :=
  match gender self with
  | Female => comprehension (λ m, related g (husband m)) (husband_of ms self)
  | Male => comprehension (λ m, related g (wife m)) (wife_of ms self)
  end.

(** The key [spouses] matches against the person in a marriage row and the
    key it follows from that row, by the person's gender. *)
Definition spouse_key (p : Person) (m : Marriage) : Z * Z :=
  match gender p with
  | Female => (wife m, husband m)
  | Male => (husband m, wife m)
  end.

(** [Marriage.__unicode__]. *)
Definition Marriage_unicode (g : Store) (self : Marriage) : result string :=
  h ← related g (husband self);
  w ← related g (wife self);
  OK (name h false false +:+ " & " +:+ name w false true).

(** ** The annotated lists *)

Section Described.

(** [people.relations.describe_relative], which the module imports and whose
    code is not part of it: a call returns a string or raises. *)
Variable describe_relative : Store → Person → Person → result string.

Definition annotated_descendants (limit : nat) (g : Store) (self : Person)
  : result (list (Person * string)) :=
  let annotated : list (Person * string) := [] in
  ds ← descendants limit g self;
  for_each (λ annotated descendant,
              r ← describe_relative g self descendant;
              OK (annotated ++ [(descendant, r)]))
           ds annotated.

End Described.

Section Annotated.

Variable describe_relative : Store → Person → Person → string.

(** The loop [for x in l: annotated.append((x, describe_relative(self, x)))]. *)
Definition annotate (g : Store) (self : Person) (l : list Person)
  : list (Person * string) :=
  foldl (λ annotated x, annotated ++ [(x, describe_relative g self x)]) [] l.

Definition annotated_ancestors (limit : nat) (g : Store) (self : Person)
  : result (list (Person * string)) :=
  ancestors ← ancestors limit g self;
  OK (annotate g self ancestors).

End Annotated.

(** ** The family graph *)

(** [q] is the object that [p.mother] or [p.father] evaluates to. *)
Definition parent_of (g : Store) (p q : Person) : Prop :=
  (mother p = Some (pk q) ∨ father p = Some (pk q)) ∧ get g (pk q) = Some q.

(** A parent chain of [n] links from [p] up to [a]. *)
Inductive chain (g : Store) : Person → Person → nat → Prop :=
| chain_here p : chain g p p 0
| chain_up p q a n : parent_of g p q → chain g q a n → chain g p a (S n).

(** The same chain with the persons above [p] it passes through. *)
Inductive chain_through (g : Store) : Person → Person → list Person → Prop :=
| through_here p : chain_through g p p []
| through_up p q a l :
    parent_of g p q → chain_through g q a l → chain_through g p a (q :: l).

(** [c] is a row that [p.children()] lists. *)
Definition child_of (g : Store) (p c : Person) : Prop :=
  c ∈ g ∧
  match gender p with
  | Female => mother c = Some (pk p)
  | Male => father c = Some (pk p)
  end.

(** A chain of [n] child links from [p] down to [c]. *)
Inductive descent (g : Store) : Person → Person → nat → Prop :=
| descent_here p : descent g p p 0
| descent_down p c x n : child_of g p c → descent g c x n → descent g p x (S n).

(** The child chain with the persons below [p] it passes through. *)
Inductive descent_through (g : Store) : Person → Person → list Person → Prop :=
| dthrough_here p : descent_through g p p []
| dthrough_down p c x l :
    child_of g p c → descent_through g c x l →
    descent_through g p x (c :: l).

(** The child chains below [p] of at most [n] links, in the order in which
    a walk of [n] nested calls from [p] reaches their last person. *)
Fixpoint chains_below (n : nat) (g : Store) (p : Person) : list (list Person) :=
  match n with
  | O => []
  | S n' =>
      ((λ c, [c]) <$> children g p) ++
      concat ((λ c, (c ::.) <$> chains_below n' g c) <$> children g p)
  end.

Definition fk_resolves (g : Store) (fk : option Z) : Prop :=
  match fk with
  | None => True
  | Some k => is_Some (get g k)
  end.

(** What the database guarantees: primary keys are unique and foreign keys
    point at rows. *)
Record integrity (g : Store) : Prop := {
  unique_pk : NoDup (pk <$> g);
  mother_resolves : Forall (λ r, fk_resolves g (mother r)) g;
  father_resolves : Forall (λ r, fk_resolves g (father r)) g
}.

Definition has_gender (g : Store) (fk : option Z) (s : Gender) : Prop :=
  match fk with
  | None => True
  | Some k => gender <$> get g k = Some s
  end.

(** Mothers are female and fathers male ([limit_choices_to]). *)
Definition gender_consistent (g : Store) : Prop :=
  Forall (λ r, has_gender g (mother r) Female ∧ has_gender g (father r) Male) g.

(** No person is their own ancestor. *)
Definition acyclic (g : Store) : Prop :=
  ∀ p n, p ∈ g → ¬ chain g p p (S n).

(** A sufficient check for [acyclic]: a rank that every parent link
    strictly decreases. *)
Definition ranked (rank : Z → nat) (g : Store) : Prop :=
  Forall (λ r, Forall (λ k, (rank k < rank (pk r))%nat)
                      (option_list (mother r) ++ option_list (father r))) g.

#[global] Instance fk_resolves_dec g fk : Decision (fk_resolves g fk).
Proof. destruct fk; simpl; apply _. Defined.
#[global] Instance has_gender_dec g fk s : Decision (has_gender g fk s).
Proof. destruct fk; simpl; apply _. Defined.
#[global] Instance gender_consistent_dec g : Decision (gender_consistent g).
Proof. unfold gender_consistent. apply _. Defined.
#[global] Instance ranked_dec rank g : Decision (ranked rank g).
Proof. unfold ranked. apply _. Defined.

(** The persons the comprehension of line 117 keeps: a foreign key is
    NULL on at least one side. *)
Definition missing_a_parent (p : Person) : Prop :=
  mother p = None ∨ father p = None.

#[global] Instance missing_a_parent_dec p : Decision (missing_a_parent p).
Proof. unfold missing_a_parent. apply _. Defined.

(** The primary keys of a list of persons, as a set. *)
Definition ids (l : list Person) : gset Z := list_to_set (pk <$> l).

(** Every element of a set of persons sits under its own primary key. *)
Definition keyed (s : pset) : Prop := ∀ k x, s !! k = Some x → pk x = k.

(** ** The brute-force relative set *)

(** The union of every ancestor together with every ancestor's descendants,
    minus [self]. *)
Definition brute_force_relatives (limit : nat) (g : Store) (self : Person)
    (ancestors : list Person) : result pset :=
  every ←
    for_each (λ acc a,
                ds ← descendants limit g a;
                OK (Set_update (Set_add acc a) ds))
             ancestors (∅ : pset);
  OK (delete (pk self) every).

(** ** Whole years between two dates *)

(** The [n]-th anniversary of a date. *)
Definition anniversary (birth : date) (n : Z) : date :=
  Date (year birth + n) (month birth) (day birth).

(** The date a person's age is counted up to: the date of death for a
    deceased person, today for a living one. *)
Definition age_end (today : date) (self : Person) : option date :=
  if deceased self then date_of_death self else Some today.

(** ** Sample rows *)

Definition person (k : Z) (s : Gender) (mo fa : option Z) : Person :=
  {| pk := k; forename := ""; middle_names := ""; surname := "";
     maiden_name := ""; gender := s; date_of_birth := None;
     date_of_death := None; deceased := false; mother := mo; father := fa;
     notes := "" |}.

Definition born (d : date) (p : Person) : Person :=
  {| pk := pk p; forename := forename p; middle_names := middle_names p;
     surname := surname p; maiden_name := maiden_name p; gender := gender p;
     date_of_birth := Some d; date_of_death := date_of_death p;
     deceased := deceased p; mother := mother p; father := father p;
     notes := notes p |}.

(** A family in which [nan] is the kid's maternal grandmother and, through
    [aunt] and [dad], also the kid's paternal great-grandmother. *)
Definition nan : Person := person 1 Female None None.
Definition mum : Person := person 2 Female (Some 1) None.
Definition aunt : Person := person 3 Female (Some 1) None.
Definition dad : Person := person 4 Male (Some 3) None.
Definition kid : Person := person 5 Male (Some 2) (Some 4).
Definition family : Store := [nan; mum; aunt; dad; kid].

(** Two rows that name each other as mother. *)
Definition ouro : Person := person 1 Female (Some 2) None.
Definition boros : Person := person 2 Female (Some 1) None.
Definition loop : Store := [ouro; boros].

(** A mother and her son. *)
Definition eve : Person := person 1 Female None None.
Definition abel : Person := person 2 Male (Some 1) None.
Definition pair : Store := [eve; abel].

(** The two daughters of [nan] with dates of birth, the younger one first
    in the table. *)
Definition dated : Store :=
  [nan; born (Date 1972 5 1) aunt; born (Date 1970 3 2) mum].

(** The marriage of [dad] and [mum]. *)
Definition wedding : Marriage :=
  {| husband := 4; wife := 2; wedding_date := Some (Date 1995 7 1);
     divorce_date := None |}.

(** A man recorded as the mother of a child. *)
Definition mister : Person := person 1 Male None None.
Definition child : Person := person 2 Female (Some 1) None.
Definition odd : Store := [mister; child].

(** ** Reading the ancestor walk *)

(** One [if self.<parent>:] block of [_ancestor_distances], as a function
    of the dictionary built so far and of the foreign key it follows. *)
Definition visit (limit' : nat) (g : Store) (offset : Z) (ancestors : dict)
    (fk : option Z) : result dict :=
  p ← fetch g fk;
  match p with
  | Some parent =>
      sub ← _ancestor_distances limit' g parent (offset + 1);
      OK (dict_update (dict_setitem ancestors parent (offset + 1)) sub)
  | None => OK ancestors
  end.

(** What a distance dictionary may hold for a walk from [self]: under a
    key, the row with that key and the length of a parent chain to it. *)
Definition recorded (g : Store) (self : Person) (offset : Z) (d : dict) : Prop :=
  ∀ k a v, d !! k = Some (a, v) →
    get g k = Some a ∧ ∃ n, chain g self a (S n) ∧ v = offset + Z.of_nat (S n).

(** The parent chain the walk writes last: from [p] up to [a], stepping to
    the father whenever [a] is the father or above the father, and to the
    mother otherwise. *)
Inductive father_first (g : Store) : Person → Person → nat → Prop :=
| first_here p : father_first g p p 0
| first_father p f a n :
    father p = Some (pk f) → get g (pk f) = Some f →
    father_first g f a n → father_first g p a (S n)
| first_mother p m a n :
    mother p = Some (pk m) → get g (pk m) = Some m →
    father_first g m a n →
    (∀ f k, father p = Some (pk f) → get g (pk f) = Some f → ¬ chain g f a k) →
    father_first g p a (S n).

(** An entry of a distance dictionary with [c] added to its distance. *)
Definition shift (c : Z) (e : Person * Z) : Person * Z := (e.1, e.2 + c).

(** * Properties *)

(** ** Results *)

Lemma bind_OK {A B} (m : result A) (f : A → result B) b :
  m ≫= f = OK b ↔ ∃ a, m = OK a ∧ f a = OK b.
Proof.
  destruct m as [a|e]; simpl.
  - split; [eauto | intros (a' & [= <-] & ?); done].
  - split; [done | intros (a' & [=] & ?)].
Qed.

Lemma bind_Raise {A B} (m : result A) (f : A → result B) e :
  m ≫= f = Raise e ↔ m = Raise e ∨ ∃ a, m = OK a ∧ f a = Raise e.
Proof.
  destruct m as [a|e']; simpl.
  - split; [eauto | intros [[=] | (a' & [= <-] & ?)]; done].
  - split; [intros [= <-]; eauto | intros [[= <-] | (a' & [=] & ?)]; done].
Qed.

(** ** The table *)

Lemma get_Some g k r : get g k = Some r → r ∈ g ∧ pk r = k.
Proof.
  unfold get. intros H. apply find_some in H as [Hin Hk].
  apply bool_decide_eq_true in Hk. by rewrite list_elem_of_In.
Qed.

Lemma get_elem g r : NoDup (pk <$> g) → r ∈ g → get g (pk r) = Some r.
Proof.
  unfold get. induction g as [|x g IH]; intros Hnd Hin.
  - by apply not_elem_of_nil in Hin.
  - simpl. rewrite fmap_cons in Hnd. apply NoDup_cons in Hnd as [Hx Hnd].
    case_bool_decide as Hpk.
    + apply elem_of_cons in Hin as [->|Hin]; [done|].
      exfalso. apply Hx. rewrite Hpk. apply list_elem_of_fmap. eauto.
    + apply elem_of_cons in Hin as [->|Hin]; [done|]. by apply IH.
Qed.

Lemma pk_inj g p q : NoDup (pk <$> g) → p ∈ g → q ∈ g → pk p = pk q → p = q.
Proof.
  intros Hnd Hp Hq Hpk. apply (get_elem g) in Hp, Hq; try done.
  rewrite Hpk in Hp. congruence.
Qed.

Lemma fetch_OK g fk o :
  fetch g fk = OK o ↔
  (fk = None ∧ o = None) ∨ (∃ k r, fk = Some k ∧ get g k = Some r ∧ o = Some r).
Proof.
  unfold fetch. destruct fk as [k|]; [destruct (get g k) as [r|] eqn:Hg|].
  - split; [intros [= <-]; right; eauto | intros [[[=] _]|(?&?&[= <-]&?&->)]; congruence].
  - split; [done | intros [[[=] _]|(?&?&[= <-]&?&->)]; congruence].
  - split; [intros [= <-]; by left | intros [[_ ->]|(?&?&[=]&_)]; done].
Qed.

Lemma fetch_resolves g fk : fk_resolves g fk → ∃ o, fetch g fk = OK o.
Proof.
  unfold fetch. destruct fk as [k|]; simpl; [|eauto].
  intros [r ->]. eauto.
Qed.

Lemma fetch_Raise g fk e : fetch g fk = Raise e → e = DoesNotExist.
Proof.
  unfold fetch. destruct fk as [k|]; [destruct (get g k)|]; congruence.
Qed.

Lemma integrity_resolves g r :
  integrity g → r ∈ g → fk_resolves g (mother r) ∧ fk_resolves g (father r).
Proof.
  intros [_ Hm Hf] Hin. rewrite Forall_forall in Hm, Hf. split; auto.
Qed.

(** ** Ordering and children *)

Lemma order_by_Permutation l : order_by_date_of_birth l ≡ₚ l.
Proof. apply merge_sort_Permutation. Qed.

Lemma elem_of_children g p c : c ∈ children g p ↔ child_of g p c.
Proof.
  unfold children, child_of, children_of_mother, children_of_father.
  rewrite order_by_Permutation.
  destruct (gender p); rewrite list_elem_of_filter; tauto.
Qed.

Lemma NoDup_children g p : NoDup (pk <$> g) → NoDup (pk <$> children g p).
Proof.
  intros Hnd. unfold children. rewrite order_by_Permutation.
  assert (Hsub : ∀ P `{∀ x, Decision (P x)}, NoDup (pk <$> filter P g)).
  { intros P HP. clear -Hnd. induction g as [|x g IH]; [constructor|].
    rewrite fmap_cons in Hnd. apply NoDup_cons in Hnd as [Hx Hnd].
    rewrite filter_cons. case_decide; [|by apply IH].
    rewrite fmap_cons. apply NoDup_cons. split; [|by apply IH].
    intros Hin. apply Hx. apply list_elem_of_fmap in Hin as (y & -> & Hy).
    apply list_elem_of_filter in Hy as [_ Hy]. apply list_elem_of_fmap. eauto. }
  destruct (gender p); apply Hsub.
Qed.

(** ** Parent chains and child chains *)

Lemma parent_of_elem g p q : parent_of g p q → q ∈ g.
Proof. intros [_ Hq]. by apply get_Some in Hq as [? _]. Qed.

Lemma chain_elem g p a n : p ∈ g → chain g p a n → a ∈ g.
Proof.
  intros Hp Hc. induction Hc as [|p q a n Hpq _ IH]; [done|].
  apply IH. by eapply parent_of_elem.
Qed.

Lemma chain_snoc g p q a n :
  chain g p q n → parent_of g q a → chain g p a (S n).
Proof.
  intros Hc Hqa. induction Hc as [p|p q' q n Hpq _ IH].
  - econstructor; [done|constructor].
  - econstructor; [done|by apply IH].
Qed.

Lemma chain_app g p q a n m :
  chain g p q n → chain g q a m → chain g p a (n + m).
Proof.
  intros Hpq Hqa. induction Hpq as [|p q' q n Hp _ IH]; [done|].
  simpl. econstructor; [done|by apply IH].
Qed.

Lemma chain_through_chain g p a l :
  chain_through g p a l → chain g p a (length l).
Proof. induction 1; simpl; econstructor; eauto. Qed.

Lemma chain_chain_through g p a n :
  chain g p a n → ∃ l, chain_through g p a l ∧ length l = n.
Proof.
  induction 1 as [p|p q a n Hpq _ (l & Hl & <-)].
  - exists []. split; [constructor|done].
  - exists (q :: l). split; [by econstructor|done].
Qed.

Lemma chain_through_reach g q a l x :
  chain_through g q a l → x ∈ q :: l → ∃ n, chain g q x n.
Proof.
  intros Hc. revert x. induction Hc as [p|p q a l Hpq _ IH]; intros x Hx.
  - apply list_elem_of_singleton in Hx as ->. exists 0%nat. constructor.
  - apply elem_of_cons in Hx as [->|Hx]; [exists 0%nat; constructor|].
    destruct (IH x Hx) as [n Hn]. exists (S n). by econstructor.
Qed.

Lemma chain_through_NoDup g p a l :
  acyclic g → p ∈ g → chain_through g p a l →
  NoDup (p :: l) ∧ Forall (λ x, x ∈ g) (p :: l).
Proof.
  intros Hac Hp Hc. induction Hc as [p|p q a l Hpq Hc IH].
  - split; [apply NoDup_singleton|by repeat constructor].
  - pose proof (parent_of_elem _ _ _ Hpq) as Hq.
    destruct (IH Hq) as [Hnd Hall]. split; [|by constructor].
    apply NoDup_cons. split; [|done]. intros Hin.
    destruct (chain_through_reach _ _ _ _ _ Hc Hin) as [n Hn].
    apply (Hac p n Hp). by econstructor.
Qed.

(** In an acyclic table a parent chain is shorter than the table. *)
Lemma chain_bound g p a n :
  acyclic g → p ∈ g → chain g p a n → (n < length g)%nat.
Proof.
  intros Hac Hp Hc. apply chain_chain_through in Hc as (l & Hl & <-).
  destruct (chain_through_NoDup _ _ _ _ Hac Hp Hl) as [Hnd Hall].
  rewrite Forall_forall in Hall.
  pose proof (submseteq_length _ _ (NoDup_submseteq _ _ Hnd Hall)) as Hle.
  simpl in Hle. lia.
Qed.

Lemma child_parent g p c :
  NoDup (pk <$> g) → p ∈ g → child_of g p c → parent_of g c p.
Proof.
  intros Hnd Hp [Hc Hfk]. split; [|by apply get_elem].
  destruct (gender p); auto.
Qed.

Lemma parent_child g c p :
  gender_consistent g → c ∈ g → parent_of g c p → child_of g p c.
Proof.
  intros Hgc Hc [Hfk Hget]. split; [done|].
  unfold gender_consistent in Hgc. rewrite Forall_forall in Hgc.
  destruct (Hgc c Hc) as [Hm Hf].
  destruct Hfk as [Hfk|Hfk]; rewrite Hfk in *; simpl in *.
  - rewrite Hget in Hm. simpl in Hm. injection Hm as ->. done.
  - rewrite Hget in Hf. simpl in Hf. injection Hf as ->. done.
Qed.

Lemma descent_elem g p x n : p ∈ g → descent g p x n → x ∈ g.
Proof.
  intros Hp Hd. induction Hd as [|p c x n [Hc _] _ IH]; [done|]. by apply IH.
Qed.

Lemma descent_snoc g p c x n :
  descent g p c n → child_of g c x → descent g p x (S n).
Proof.
  intros Hd Hcx. induction Hd as [p|p c' c n Hpc _ IH].
  - econstructor; [done|constructor].
  - econstructor; [done|by apply IH].
Qed.

Lemma descent_app g p q x n m :
  descent g p q n → descent g q x m → descent g p x (n + m).
Proof.
  intros Hpq Hqx. induction Hpq as [|p c q n Hp _ IH]; [done|].
  simpl. econstructor; [done|by apply IH].
Qed.

Lemma descent_chain g p x n :
  NoDup (pk <$> g) → p ∈ g → descent g p x n → chain g x p n.
Proof.
  intros Hnd Hp Hd. induction Hd as [p|p c x n Hpc _ IH]; [constructor|].
  eapply chain_snoc; [apply IH; by destruct Hpc|by apply child_parent].
Qed.

Lemma chain_descent g c p n :
  gender_consistent g → c ∈ g → chain g c p n → descent g p c n.
Proof.
  intros Hgc Hc Hch. induction Hch as [c|c q p n Hcq _ IH]; [constructor|].
  eapply descent_snoc; [apply IH; by eapply parent_of_elem|by apply parent_child].
Qed.

Lemma descent_0_inv g p x : descent g p x 0 → x = p.
Proof. by inversion 1. Qed.

Lemma descent_S_inv g p x n :
  descent g p x (S n) → ∃ c, child_of g p c ∧ descent g c x n.
Proof. inversion 1; subst; eauto. Qed.

Lemma chain_0_inv g p a : chain g p a 0 → a = p.
Proof. by inversion 1. Qed.

Lemma chain_S_inv g p a n :
  chain g p a (S n) → ∃ q, parent_of g p q ∧ chain g q a n.
Proof. inversion 1; subst; eauto. Qed.

(** In an acyclic table a child chain is shorter than the table. *)
Lemma descent_bound g p x n :
  integrity g → acyclic g → p ∈ g → descent g p x n → (n < length g)%nat.
Proof.
  intros [Hnd _ _] Hac Hp Hd.
  eapply chain_bound; [done| |by apply descent_chain].
  by eapply descent_elem.
Qed.

Lemma descent_through_descent g p x l :
  descent_through g p x l → descent g p x (length l).
Proof. induction 1; simpl; econstructor; eauto. Qed.

Lemma descent_descent_through g p x n :
  descent g p x n → ∃ l, descent_through g p x l ∧ length l = n.
Proof.
  induction 1 as [p|p c x n Hpc _ (l & Hl & <-)].
  - exists []. split; [constructor|done].
  - exists (c :: l). split; [by econstructor|done].
Qed.

(** A rank that every parent link decreases rules out cycles. *)
Lemma ranked_acyclic rank g : ranked rank g → acyclic g.
Proof.
  intros Hr. unfold ranked in Hr. rewrite Forall_forall in Hr.
  assert (Hstep : ∀ p q, p ∈ g → parent_of g p q → (rank (pk q) < rank (pk p))%nat).
  { intros p q Hp [Hfk _]. specialize (Hr p Hp). rewrite Forall_forall in Hr.
    apply Hr. destruct Hfk as [-> | ->]; set_solver. }
  assert (Hle : ∀ p a n, p ∈ g → chain g p a n → (rank (pk a) + n ≤ rank (pk p))%nat).
  { intros p a n Hp Hc. induction Hc as [|p q a n Hpq _ IH]; [lia|].
    specialize (Hstep p q Hp Hpq). specialize (IH (parent_of_elem _ _ _ Hpq)). lia. }
  intros p n Hp Hc. specialize (Hle p p (S n) Hp Hc). lia.
Qed.

(** ** Loops that call a traversal per element *)

Lemma for_each_OK {A B C} (D : A → result C) (h : B → C → B) l acc r :
  for_each (λ acc c, x ← D c; OK (h acc x)) l acc = OK r ↔
  ∃ xs, Forall2 (λ c x, D c = OK x) l xs ∧ r = foldl h acc xs.
Proof.
  revert acc. induction l as [|c l IH]; intros acc; simpl.
  - split.
    + intros [= <-]. exists []. split; [constructor|done].
    + intros (xs & Hxs & ->). by apply Forall2_nil_inv_l in Hxs as ->.
  - rewrite bind_OK. split.
    + intros (acc' & Hc & Hrest). apply bind_OK in Hc as (x & Hx & [= <-]).
      apply IH in Hrest as (xs & Hxs & ->).
      exists (x :: xs). split; [by constructor|done].
    + intros (xs & Hxs & ->).
      apply Forall2_cons_inv_l in Hxs as (x & xs' & Hx & Hxs' & ->).
      exists (h acc x). rewrite Hx. split; [done|]. apply IH. eauto.
Qed.

Lemma for_each_Raise {A B C} (D : A → result C) (h : B → C → B) l acc e :
  for_each (λ acc c, x ← D c; OK (h acc x)) l acc = Raise e →
  ∃ c, c ∈ l ∧ D c = Raise e.
Proof.
  revert acc. induction l as [|c l IH]; intros acc; simpl; [done|].
  rewrite bind_Raise. intros [Hc | (acc' & _ & Hrest)].
  - apply bind_Raise in Hc as [Hc | (x & _ & [=])].
    exists c. split; [left|done].
  - destruct (IH _ Hrest) as (c' & Hin & Hc'). exists c'. split; [by right|done].
Qed.

Lemma for_each_total {A B C} (D : A → result C) (h : B → C → B) l acc :
  Forall (λ c, ∃ x, D c = OK x) l →
  ∃ r, for_each (λ acc c, x ← D c; OK (h acc x)) l acc = OK r.
Proof.
  intros Hall. destruct (for_each (λ acc c, x ← D c; OK (h acc x)) l acc)
    as [r|e] eqn:Hr; [eauto|].
  apply for_each_Raise in Hr as (c & Hin & Hc).
  rewrite Forall_forall in Hall. destruct (Hall c Hin) as [x Hx]. congruence.
Qed.

Lemma foldl_app_concat {A} (acc : list A) ls :
  foldl app acc ls = acc ++ concat ls.
Proof.
  revert acc. induction ls as [|s ls IH]; intros acc; simpl.
  - by rewrite app_nil_r.
  - by rewrite IH, app_assoc.
Qed.

Lemma elem_of_concat {A} (x : A) ls : x ∈ concat ls ↔ ∃ s, s ∈ ls ∧ x ∈ s.
Proof.
  induction ls as [|s ls IH]; simpl.
  - split; [by intros ?%not_elem_of_nil | by intros (? & ?%not_elem_of_nil & _)].
  - rewrite elem_of_app, IH. split.
    + intros [Hx | (s' & Hs' & Hx)]; [exists s|exists s']; split; try done;
        [left|by right].
    + intros (s' & Hs' & Hx). apply elem_of_cons in Hs' as [->|Hs']; eauto.
Qed.

(** ** The descendant walk *)

Lemma descendants_OK n g p l :
  descendants (S n) g p = OK l ↔
  ∃ ls, Forall2 (λ c s, descendants n g c = OK s) (children g p) ls ∧
        l = children g p ++ concat ls.
Proof.
  change (descendants (S n) g p) with
    (for_each (λ acc c, sub ← descendants n g c; OK (acc ++ sub))
              (children g p) (children g p)).
  rewrite for_each_OK. by setoid_rewrite foldl_app_concat.
Qed.

Lemma descendants_Raise limit g p e :
  descendants limit g p = Raise e → e = RuntimeError.
Proof.
  revert p. induction limit as [|n IH]; intros p; simpl; [congruence|].
  intros (c & _ & Hc)%for_each_Raise. by eapply IH.
Qed.

Lemma descendants_total limit g p :
  (∀ x n, descent g p x n → (n < limit)%nat) →
  ∃ l, descendants limit g p = OK l.
Proof.
  revert p. induction limit as [|n IH]; intros p Hb.
  - specialize (Hb p 0%nat (descent_here g p)). lia.
  - apply for_each_total. apply Forall_forall. intros c Hc.
    apply elem_of_children in Hc. apply IH. intros x k Hk.
    assert (S k < S n)%nat; [|lia]. apply (Hb x). by econstructor.
Qed.

(** A returned list holds exactly the persons a child chain reaches. *)
Lemma elem_of_descendants limit g p l x :
  descendants limit g p = OK l → x ∈ l ↔ ∃ n, descent g p x (S n).
Proof.
  revert p l x. induction limit as [|n IH]; intros p l x; [done|].
  intros (ls & Hls & ->)%descendants_OK.
  rewrite elem_of_app, elem_of_concat. split.
  - intros [Hx | (s & Hs & Hx)].
    + exists 0%nat. econstructor; [by apply elem_of_children|constructor].
    + apply list_elem_of_lookup in Hs as [i Hi].
      destruct (Forall2_lookup_r _ _ _ _ _ Hls Hi) as (c & Hc & Hd).
      destruct (proj1 (IH _ _ x Hd) Hx) as [k Hk].
      exists (S k). econstructor; [|done].
      apply elem_of_children. apply list_elem_of_lookup. eauto.
  - intros [k Hk]. apply descent_S_inv in Hk as (c & Hpc & Hcx).
    destruct k as [|k].
    + apply descent_0_inv in Hcx as ->. left. by apply elem_of_children.
    + right. apply elem_of_children in Hpc.
      apply list_elem_of_lookup in Hpc as [i Hi].
      destruct (Forall2_lookup_l _ _ _ _ _ Hls Hi) as (s & Hs & Hd).
      exists s. split; [apply list_elem_of_lookup; eauto|].
      apply (IH _ _ x Hd). eauto.
Qed.

(** On a child chain that comes back to itself the walk never returns. *)
Lemma descendants_diverge limit g p q k n :
  descent g p q k → descent g q q (S n) →
  descendants limit g p = Raise RuntimeError.
Proof.
  revert p k. induction limit as [|m IH]; intros p k Hpq Hqq; [done|].
  assert (∃ c k', child_of g p c ∧ descent g c q k') as (c & k' & Hpc & Hcq).
  { destruct k as [|k].
    - apply descent_0_inv in Hpq as ->.
      apply descent_S_inv in Hqq as (c & ? & ?). eauto.
    - apply descent_S_inv in Hpq as (c & ? & ?). eauto. }
  destruct (descendants (S m) g p) as [l|e] eqn:Hd.
  - apply descendants_OK in Hd as (ls & Hls & _).
    apply elem_of_children, list_elem_of_lookup in Hpc as [i Hi].
    destruct (Forall2_lookup_l _ _ _ _ _ Hls Hi) as (s & _ & Hs).
    rewrite (IH c k' Hcq Hqq) in Hs. done.
  - by apply descendants_Raise in Hd as ->.
Qed.

(** ** The distance dictionary *)

Lemma lookup_dict_setitem (d : dict) k v j :
  dict_setitem d k v !! j =
  if decide (pk k = j) then Some (from_option fst k (d !! pk k), v) else d !! j.
Proof.
  unfold dict_setitem. destruct (d !! pk k) as [[k0 v0]|] eqn:Hd; simpl;
    rewrite lookup_insert; by case_decide.
Qed.

Lemma lookup_dict_update (d o : dict) j :
  dict_update d o !! j =
  match o !! j with
  | Some (k, v) => Some (from_option fst k (d !! j), v)
  | None => d !! j
  end.
Proof.
  unfold dict_update. rewrite lookup_union_with.
  destruct (o !! j) as [[k v]|], (d !! j) as [[k0 v0]|]; done.
Qed.

Lemma elem_of_keys (d : dict) a : a ∈ keys d ↔ ∃ k v, d !! k = Some (a, v).
Proof.
  unfold keys. rewrite list_elem_of_fmap. split.
  - intros ([k [a' v]] & -> & Hin). apply elem_of_map_to_list in Hin. eauto.
  - intros (k & v & Hd). exists (k, (a, v)). split; [done|].
    by apply elem_of_map_to_list.
Qed.

(** ** The ancestor walk *)

Lemma walk_S n g self offset :
  _ancestor_distances (S n) g self offset =
  a ← visit n g offset ∅ (mother self); visit n g offset a (father self).
Proof.
  unfold visit. simpl.
  destruct (fetch g (mother self)) as [[q|]|e]; simpl; [|done..].
  by destruct (_ancestor_distances n g q (offset + 1)).
Qed.

Lemma visit_OK n g offset a fk d :
  visit n g offset a fk = OK d ↔
  (fk = None ∧ d = a) ∨
  (∃ k q sub, fk = Some k ∧ get g k = Some q ∧
     _ancestor_distances n g q (offset + 1) = OK sub ∧
     d = dict_update (dict_setitem a q (offset + 1)) sub).
Proof.
  unfold visit. rewrite bind_OK. setoid_rewrite fetch_OK. split.
  - intros (o & [[-> ->] | (k & r & -> & Hg & ->)] & H).
    + left. split; congruence.
    + apply bind_OK in H as (sub & Hsub & [= <-]). right. by exists k, r, sub.
  - intros [[-> ->] | (k & q & sub & -> & Hg & Hsub & ->)].
    + exists None. split; [by left|done].
    + exists (Some q). split; [right; by exists k, q|]. by rewrite Hsub.
Qed.

Lemma walk_Raise limit g self offset e :
  _ancestor_distances limit g self offset = Raise e →
  e = RuntimeError ∨ e = DoesNotExist.
Proof.
  revert self offset. induction limit as [|n IH]; intros self offset.
  - intros [= <-]. by left.
  - rewrite walk_S.
    assert (Hv : ∀ a fk, visit n g offset a fk = Raise e →
                 e = RuntimeError ∨ e = DoesNotExist).
    { intros a fk. unfold visit.
      intros [Hf | (o & _ & Ho)]%bind_Raise.
      - right. by eapply fetch_Raise.
      - destruct o as [q|]; [|done].
        apply bind_Raise in Ho as [Ho | (? & _ & [=])]. by eapply IH. }
    intros [H | (a & _ & H)]%bind_Raise; by eapply Hv.
Qed.

(** With the foreign keys in place the walk fails only by running out of
    depth. *)
Lemma walk_Raise_integrity limit g self offset e :
  integrity g → self ∈ g →
  _ancestor_distances limit g self offset = Raise e → e = RuntimeError.
Proof.
  intros Hi. revert self offset. induction limit as [|n IH]; intros self offset Hs.
  - by intros [= <-].
  - rewrite walk_S. destruct (integrity_resolves _ _ Hi Hs) as [Hm Hf].
    assert (Hv : ∀ a fk, fk_resolves g fk →
                 visit n g offset a fk = Raise e → e = RuntimeError).
    { intros a fk Hfk. unfold visit.
      destruct (fetch_resolves _ _ Hfk) as [o Ho]. rewrite Ho. simpl.
      destruct o as [q|]; [|done].
      apply fetch_OK in Ho as [[_ [=]] | (k & r & -> & Hg & [= <-])].
      intros [H | (? & _ & [=])]%bind_Raise.
      eapply IH; [|done]. by apply get_Some in Hg as [? _]. }
    intros [H | (a & _ & H)]%bind_Raise;
      [by eapply Hv; [apply Hm|]|by eapply Hv; [apply Hf|]].
Qed.

Lemma recorded_setitem g self offset a q :
  recorded g self offset a → parent_of g self q →
  recorded g self offset (dict_setitem a q (offset + 1)).
Proof.
  intros Ha Hpq j b v. rewrite lookup_dict_setitem. case_decide as Hj; [|apply Ha].
  subst j. intros [= <- <-].
  assert (from_option fst q (a !! pk q) = q) as ->.
  { destruct (a !! pk q) as [[a0 v0]|] eqn:Ha0; simpl; [|done].
    destruct (Ha _ _ _ Ha0) as [? _]. destruct Hpq as [_ ?]. congruence. }
  split; [by destruct Hpq|].
  exists 0%nat. split; [econstructor; [done|constructor]|lia].
Qed.

Lemma recorded_update g self offset a sub :
  recorded g self offset a → recorded g self offset sub →
  recorded g self offset (dict_update a sub).
Proof.
  intros Ha Hsub j b v. rewrite lookup_dict_update.
  destruct (sub !! j) as [[b' v']|] eqn:Hj; [|apply Ha].
  destruct (Hsub _ _ _ Hj) as [Hg Hn]. intros [= <- <-].
  assert (from_option fst b' (a !! j) = b') as ->; [|done].
  destruct (a !! j) as [[a0 v0]|] eqn:Ha0; simpl; [|done].
  destruct (Ha _ _ _ Ha0) as [? _]. congruence.
Qed.

Lemma recorded_shift g self offset q sub :
  parent_of g self q → recorded g q (offset + 1) sub →
  recorded g self offset sub.
Proof.
  intros Hpq Hsub j b v Hj. destruct (Hsub _ _ _ Hj) as (Hg & n & Hn & ->).
  split; [done|]. exists (S n). split; [by econstructor|lia].
Qed.

(** Every entry of a returned dictionary is [recorded]. *)
Lemma walk_recorded limit g self offset d :
  _ancestor_distances limit g self offset = OK d → recorded g self offset d.
Proof.
  revert self offset d. induction limit as [|n IH]; intros self offset d; [done|].
  rewrite walk_S.
  assert (Hv : ∀ a fk d', (fk = mother self ∨ fk = father self) →
               recorded g self offset a → visit n g offset a fk = OK d' →
               recorded g self offset d').
  { intros a fk d' Hfk Ha
      [[-> ->] | (k & q & sub & -> & Hg & Hsub & ->)]%visit_OK; [done|].
    pose proof (get_Some _ _ _ Hg) as [Hq Hk]. subst k.
    assert (Hpq : parent_of g self q).
    { split; [|done]. destruct Hfk as [-> | ->]; auto. }
    apply recorded_update; [by apply recorded_setitem|].
    eapply recorded_shift; [done|]. by eapply IH. }
  intros (a & Ha & Hd)%bind_OK.
  eapply Hv in Ha; [|by left|done]. eapply Hv in Hd; [done|by right|done].
Qed.

Lemma is_Some_dict_setitem (d : dict) k v j :
  is_Some (dict_setitem d k v !! j) ↔ pk k = j ∨ is_Some (d !! j).
Proof.
  rewrite lookup_dict_setitem. destruct (decide (pk k = j)) as [Hj|Hj].
  - split; [by left|eauto].
  - split; [by right|by intros [?|?]].
Qed.

Lemma is_Some_dict_update (d o : dict) j :
  is_Some (dict_update d o !! j) ↔ is_Some (d !! j) ∨ is_Some (o !! j).
Proof.
  rewrite lookup_dict_update. destruct (o !! j) as [[k v]|].
  - split; [by right|eauto].
  - split; [by left|]. intros [?|[? ?]]; done.
Qed.

Lemma visit_mono n g offset a fk d j :
  visit n g offset a fk = OK d → is_Some (a !! j) → is_Some (d !! j).
Proof.
  intros [[-> ->] | (k & q & sub & -> & Hg & Hsub & ->)]%visit_OK Hj; [done|].
  apply is_Some_dict_update. left. apply is_Some_dict_setitem. by right.
Qed.

(** A returned dictionary has a key for every proper ancestor. *)
Lemma walk_complete limit g self offset d a n :
  _ancestor_distances limit g self offset = OK d →
  chain g self a (S n) → is_Some (d !! pk a).
Proof.
  revert self offset d a n.
  induction limit as [|m IH]; intros self offset d a n; [done|].
  rewrite walk_S.
  assert (Hv : ∀ acc q d', visit m g offset acc (Some (pk q)) = OK d' →
               get g (pk q) = Some q → chain g q a n → is_Some (d' !! pk a)).
  { intros acc q d' [[[=] _] | (k & q' & sub & [= <-] & Hg & Hsub & ->)]%visit_OK
      Hq Hqa.
    rewrite Hq in Hg. injection Hg as <-.
    apply is_Some_dict_update. destruct n as [|n].
    - apply chain_0_inv in Hqa as ->. left. apply is_Some_dict_setitem. by left.
    - right. by eapply IH. }
  intros (a1 & Hm & Hf)%bind_OK (q & [[Hfk|Hfk] Hq] & Hqa)%chain_S_inv.
  - rewrite Hfk in Hm. eapply visit_mono; [done|]. by eapply Hv.
  - rewrite Hfk in Hf. by eapply Hv.
Qed.

(** The walk returns when no parent chain from [self] reaches the limit. *)
Lemma walk_total limit g self offset :
  integrity g → self ∈ g →
  (∀ a n, chain g self a n → (n < limit)%nat) →
  ∃ d, _ancestor_distances limit g self offset = OK d.
Proof.
  intros Hi. revert self offset.
  induction limit as [|m IH]; intros self offset Hs Hb.
  - specialize (Hb self 0%nat (chain_here g self)). lia.
  - rewrite walk_S. destruct (integrity_resolves _ _ Hi Hs) as [Hm Hf].
    assert (Hv : ∀ acc fk, (fk = mother self ∨ fk = father self) →
                 fk_resolves g fk → ∃ d, visit m g offset acc fk = OK d).
    { intros acc fk Hfk Hres. unfold visit.
      destruct (fetch_resolves _ _ Hres) as [o Ho]. rewrite Ho. simpl.
      destruct o as [q|]; [|eauto].
      apply fetch_OK in Ho as [[_ [=]] | (k & r & -> & Hg & [= <-])].
      pose proof (get_Some _ _ _ Hg) as [Hq <-].
      destruct (IH q (offset + 1) Hq) as [sub ->]; [|simpl; eauto].
      intros a n Hqa. assert (S n < S m)%nat; [|lia]. apply (Hb a).
      econstructor; [|done]. split; [|done]. destruct Hfk as [<- | <-]; auto. }
    destruct (Hv ∅ (mother self)) as [a1 ->]; [by left|done|]. simpl.
    apply Hv; [by right|done].
Qed.

Lemma walk_OK_parent n g self offset d q :
  _ancestor_distances (S n) g self offset = OK d → parent_of g self q →
  ∃ sub, _ancestor_distances n g q (offset + 1) = OK sub.
Proof.
  rewrite walk_S. intros (a1 & Hm & Hf)%bind_OK [[Hfk|Hfk] Hq].
  - rewrite Hfk in Hm.
    apply visit_OK in Hm as [[[=] _] | (k & q' & sub & [= <-] & Hg & Hsub & _)].
    rewrite Hq in Hg. injection Hg as <-. eauto.
  - rewrite Hfk in Hf.
    apply visit_OK in Hf as [[[=] _] | (k & q' & sub & [= <-] & Hg & Hsub & _)].
    rewrite Hq in Hg. injection Hg as <-. eauto.
Qed.

(** On a parent chain that comes back to itself the walk never returns. *)
Lemma walk_diverge limit g p offset q k n :
  integrity g → p ∈ g → chain g p q k → chain g q q (S n) →
  _ancestor_distances limit g p offset = Raise RuntimeError.
Proof.
  intros Hi. revert p offset k.
  induction limit as [|m IH]; intros p offset k Hp Hpq Hqq; [done|].
  assert (∃ c k', parent_of g p c ∧ chain g c q k') as (c & k' & Hpc & Hcq).
  { destruct k as [|k].
    - apply chain_0_inv in Hpq as ->.
      apply chain_S_inv in Hqq as (c & ? & ?). eauto.
    - apply chain_S_inv in Hpq as (c & ? & ?). eauto. }
  destruct (_ancestor_distances (S m) g p offset) as [d|e] eqn:Hd.
  - destruct (walk_OK_parent _ _ _ _ _ _ Hd Hpc) as [sub Hsub].
    rewrite (IH c (offset + 1) k') in Hsub; [done| |done..].
    by eapply parent_of_elem.
  - by apply walk_Raise_integrity in Hd as ->.
Qed.

Lemma visit_recorded n g self offset a fk d :
  fk = mother self ∨ fk = father self → recorded g self offset a →
  visit n g offset a fk = OK d → recorded g self offset d.
Proof.
  intros Hfk Ha [[-> ->] | (k & q & sub & -> & Hg & Hsub & ->)]%visit_OK; [done|].
  pose proof (get_Some _ _ _ Hg) as [Hq Hk]. subst k.
  assert (Hpq : parent_of g self q).
  { split; [|done]. destruct Hfk as [-> | ->]; auto. }
  apply recorded_update; [by apply recorded_setitem|].
  eapply recorded_shift; [done|]. by eapply walk_recorded.
Qed.

(** A larger recursion limit does not change what the walk returns. *)
Lemma walk_limit_S n g self offset d :
  _ancestor_distances n g self offset = OK d →
  _ancestor_distances (S n) g self offset = OK d.
Proof.
  revert self offset d. induction n as [|n IH]; intros self offset d; [done|].
  rewrite (walk_S (S n)), (walk_S n).
  assert (Hv : ∀ a fk d', visit n g offset a fk = OK d' →
               visit (S n) g offset a fk = OK d').
  { intros a fk d' [[-> ->] | (k & q & sub & -> & Hg & Hsub & ->)]%visit_OK.
    - apply visit_OK. by left.
    - apply visit_OK. right. exists k, q, sub. split_and!; try done. by apply IH. }
  intros (a1 & Hm & Hf)%bind_OK. apply bind_OK. exists a1. split; by apply Hv.
Qed.

(** What the father's own walk records is what the walk from [self] ends
    with: the father's side is written last. *)
Lemma walk_father_last n g self offset d f df :
  acyclic g →
  _ancestor_distances (S n) g self offset = OK d →
  father self = Some (pk f) → get g (pk f) = Some f →
  _ancestor_distances (S n) g f (offset + 1) = OK df →
  (∀ k a v, df !! k = Some (a, v) → d !! k = Some (a, v)) ∧
  d !! pk f = Some (f, offset + 1).
Proof.
  intros Hac Hd Hfk Hg Hdf. rewrite walk_S in Hd.
  apply bind_OK in Hd as (a1 & Hm & Hf).
  assert (Ha1 : recorded g self offset a1).
  { eapply visit_recorded; [by left| |done]. by intros k a v. }
  rewrite Hfk in Hf.
  apply visit_OK in Hf as [[[=] _] | (k & q & sub & [= <-] & Hq & Hsub & ->)].
  rewrite Hg in Hq. injection Hq as <-.
  rewrite (walk_limit_S _ _ _ _ _ Hsub) in Hdf. injection Hdf as <-.
  pose proof (walk_recorded _ _ _ _ _ Hsub) as Hrec.
  assert (Hpf : parent_of g self f) by (split; auto).
  pose proof (recorded_setitem _ _ _ _ _ Ha1 Hpf) as Hset.
  split.
  - intros k a v Hk. rewrite lookup_dict_update, Hk. f_equal. f_equal.
    destruct (dict_setitem a1 f (offset + 1) !! k) as [[a0 v0]|] eqn:H0;
      simpl; [|done].
    destruct (Hset _ _ _ H0) as [? _]. destruct (Hrec _ _ _ Hk) as [? _].
    congruence.
  - rewrite lookup_dict_update.
    destruct (sub !! pk f) as [[a v]|] eqn:Hk.
    + destruct (Hrec _ _ _ Hk) as (Hga & m & Hm' & _).
      rewrite Hg in Hga. injection Hga as <-.
      destruct (Hac f m); [by apply get_Some in Hg as [? _]|done].
    + rewrite lookup_dict_setitem. rewrite decide_True by done. f_equal. f_equal.
      destruct (a1 !! pk f) as [[a0 v0]|] eqn:H0; simpl; [|done].
      destruct (Ha1 _ _ _ H0) as [? _]. congruence.
Qed.

(** ** The chain the walk writes last *)

Lemma father_first_chain g p a n : father_first g p a n → chain g p a n.
Proof.
  induction 1 as [p|p f a n Hf Hg _ IH|p m a n Hm Hg _ IH _]; [constructor|..].
  - econstructor; [|done]. split; auto.
  - econstructor; [|done]. split; auto.
Qed.

(** In an acyclic table there is one such chain at most. *)
Lemma father_first_unique g p a n m :
  acyclic g → p ∈ g →
  father_first g p a n → father_first g p a m → n = m.
Proof.
  intros Hac Hp H1. revert m Hp.
  induction H1 as [p|p f a n Hf Hg H1 IH|p mo a n Hm Hg H1 IH Hno];
    intros m' Hp H2.
  - inversion H2 as [|p' f a' k Hf Hg H|p' mo a' k Hm Hg H _]; subst; [done|..].
    + apply father_first_chain in H. destruct (Hac p k Hp).
      econstructor; [|done]. split; auto.
    + apply father_first_chain in H. destruct (Hac p k Hp).
      econstructor; [|done]. split; auto.
  - pose proof (father_first_chain _ _ _ _ H1) as Hc.
    inversion H2 as [|p' f' a' k Hf' Hg' H|p' mo a' k Hm Hg' H Hno]; subst.
    + destruct (Hac a n Hp). econstructor; [|done]. split; auto.
    + assert (f' = f) as -> by congruence. f_equal. apply IH; [|done].
      by apply get_Some in Hg as [? _].
    + by destruct (Hno f n Hf Hg).
  - pose proof (father_first_chain _ _ _ _ H1) as Hc.
    inversion H2 as [|p' f a' k Hf Hg' H|p' mo' a' k Hm' Hg' H _]; subst.
    + destruct (Hac a n Hp). econstructor; [|done]. split; auto.
    + apply father_first_chain in H. by destruct (Hno f k Hf Hg').
    + assert (mo' = mo) as -> by congruence. f_equal. apply IH; [|done].
      by apply get_Some in Hg as [? _].
Qed.

(** Every distance the walk records is the length of that chain. *)
Lemma walk_father_first limit g self offset d k a v :
  _ancestor_distances limit g self offset = OK d →
  d !! k = Some (a, v) →
  ∃ n, father_first g self a (S n) ∧ v = offset + Z.of_nat (S n).
Proof.
  revert self offset d k a v.
  induction limit as [|n IH]; intros self offset d k a v Hd; [done|].
  pose proof (walk_recorded _ _ _ _ _ Hd) as Hrec.
  rewrite walk_S in Hd. apply bind_OK in Hd as (a1 & Hm & Hf).
  assert (Ha1rec : recorded g self offset a1).
  { eapply visit_recorded; [by left| |done]. by intros ? ? ?. }
  (* what the mother's block leaves *)
  assert (Ha1 : ∀ k a v, a1 !! k = Some (a, v) →
            ∃ mo j, mother self = Some (pk mo) ∧ get g (pk mo) = Some mo ∧
                    father_first g mo a j ∧ v = offset + Z.of_nat (S j)).
  { clear k a v. intros k a v Hk.
    apply visit_OK in Hm as [[_ ->] | (km & mo & sub & Hkm & Hg & Hsub & ->)];
      [done|].
    pose proof (get_Some _ _ _ Hg) as [_ <-].
    destruct (Ha1rec _ _ _ Hk) as [Hga _].
    exists mo. rewrite lookup_dict_update in Hk.
    destruct (sub !! k) as [[b w]|] eqn:Hs.
    - injection Hk as _ <-.
      destruct (walk_recorded _ _ _ _ _ Hsub _ _ _ Hs) as [Hgb _].
      assert (b = a) as -> by congruence.
      destruct (IH _ _ _ _ _ _ Hsub Hs) as (j & Hj & ->).
      exists (S j). split_and!; [done..|lia].
    - rewrite lookup_dict_setitem in Hk. case_decide as Hpk; [|done].
      injection Hk as _ <-. subst k.
      assert (a = mo) as -> by congruence.
      exists 0%nat. split_and!; [done..|constructor|lia]. }
  intros Hk.
  apply visit_OK in Hf as [[Hnone ->] | (kf & f & sub & Hkf & Hg & Hsub & ->)].
  - (* no father *)
    destruct (Ha1 _ _ _ Hk) as (mo & j & Hmo & Hg & Hj & ->).
    exists j. split; [|done]. eapply first_mother; [done..|].
    intros f' k' Hf'. congruence.
  - pose proof (get_Some _ _ _ Hg) as [_ <-].
    destruct (Hrec _ _ _ Hk) as [Hga _].
    rewrite lookup_dict_update in Hk.
    destruct (sub !! k) as [[b w]|] eqn:Hs.
    + (* above the father *)
      injection Hk as _ <-.
      destruct (walk_recorded _ _ _ _ _ Hsub _ _ _ Hs) as [Hgb _].
      assert (b = a) as -> by congruence.
      destruct (IH _ _ _ _ _ _ Hsub Hs) as (j & Hj & ->).
      exists (S j). split; [|lia]. by eapply first_father.
    + rewrite lookup_dict_setitem in Hk. case_decide as Hpk.
      * (* the father *)
        injection Hk as _ <-. subst k. assert (a = f) as -> by congruence.
        exists 0%nat. split; [|lia]. eapply first_father; [done..|constructor].
      * (* the mother's side only *)
        destruct (Ha1 _ _ _ Hk) as (mo & j & Hmo & Hgmo & Hj & ->).
        exists j. split; [|done]. eapply first_mother; [done..|].
        intros f' k' Hf' Hg' Hc. assert (f' = f) as -> by congruence.
        pose proof (get_Some _ _ _ Hga) as [_ Hka].
        destruct k' as [|k'].
        -- apply chain_0_inv in Hc as ->. done.
        -- destruct (walk_complete _ _ _ _ _ _ _ Hsub Hc) as [x Hx].
           rewrite Hka in Hx. by rewrite Hs in Hx.
Qed.

(** ** Sets of persons *)


Lemma elem_of_ids l k : k ∈ ids l ↔ ∃ x, x ∈ l ∧ pk x = k.
Proof.
  unfold ids. rewrite elem_of_list_to_set, list_elem_of_fmap. naive_solver.
Qed.

Lemma ids_nil : ids [] = ∅.
Proof. done. Qed.

Lemma ids_cons p l : ids (p :: l) = {[pk p]} ∪ ids l.
Proof. done. Qed.

Lemma ids_app l1 l2 : ids (l1 ++ l2) = ids l1 ∪ ids l2.
Proof. unfold ids. by rewrite fmap_app, list_to_set_app_L. Qed.

Lemma dom_Set_add s p : dom (Set_add s p) = {[pk p]} ∪ dom s.
Proof.
  unfold Set_add. destruct (s !! pk p) eqn:Hs.
  - assert (pk p ∈ dom s) by (apply elem_of_dom; eauto). set_solver.
  - by rewrite dom_insert_L.
Qed.

Lemma keyed_Set_add s p : keyed s → keyed (Set_add s p).
Proof.
  unfold Set_add. intros Hs. destruct (s !! pk p) eqn:Hp; [done|].
  intros k x. rewrite lookup_insert. case_decide; [congruence|apply Hs].
Qed.

Lemma dom_Set_update s l : dom (Set_update s l) = ids l ∪ dom s.
Proof.
  unfold Set_update, ids. revert s. induction l as [|p l IH]; intros s; simpl.
  - set_solver.
  - rewrite IH, dom_Set_add. set_solver.
Qed.

Lemma keyed_Set_update s l : keyed s → keyed (Set_update s l).
Proof.
  unfold Set_update. revert s. induction l as [|p l IH]; intros s Hs; [done|].
  simpl. by apply IH, keyed_Set_add.
Qed.

Lemma dom_foldl_Set_update s ls :
  dom (foldl Set_update s ls) = ids (concat ls) ∪ dom s.
Proof.
  revert s. induction ls as [|l ls IH]; intros s; simpl.
  - set_solver.
  - rewrite IH, dom_Set_update, ids_app. set_solver.
Qed.

Lemma keyed_foldl_Set_update s ls : keyed s → keyed (foldl Set_update s ls).
Proof.
  revert s. induction ls as [|l ls IH]; intros s Hs; [done|].
  simpl. by apply IH, keyed_Set_update.
Qed.

Lemma keyed_delete (s : pset) k : keyed s → keyed (delete k s).
Proof. intros Hs j x Hj. apply lookup_delete_Some in Hj as [_ Hj]. by apply Hs. Qed.

Lemma ids_Set_elements s : keyed s → ids (Set_elements s) = dom s.
Proof.
  intros Hs. apply set_eq. intros k.
  rewrite elem_of_ids, elem_of_dom. unfold Set_elements. split.
  - intros (x & Hx & <-). apply list_elem_of_fmap in Hx as ([j y] & -> & Hjy).
    apply elem_of_map_to_list in Hjy. simpl. rewrite (Hs _ _ Hjy). eauto.
  - intros [x Hx]. exists x. split; [|by apply Hs].
    apply list_elem_of_fmap. exists (k, x). split; [done|].
    by apply elem_of_map_to_list.
Qed.

Lemma Set_remove_OK s p s' :
  Set_remove s p = OK s' ↔ pk p ∈ dom s ∧ s' = delete (pk p) s.
Proof.
  unfold Set_remove. rewrite elem_of_dom. destruct (s !! pk p) eqn:Hs.
  - split; [intros [= <-]; eauto | intros [_ ->]; done].
  - split; [done | intros [[? [=]] _]].
Qed.

(** ** Root ancestors *)

Lemma father_and_mother_OK g p :
  fk_resolves g (father p) → fk_resolves g (mother p) →
  father_and_mother g p =
  OK (bool_decide (father p ≠ None ∧ mother p ≠ None)).
Proof.
  unfold father_and_mother. intros Hf Hm.
  destruct (fetch_resolves _ _ Hf) as [f Hof].
  destruct (fetch_resolves _ _ Hm) as [m Hom].
  rewrite Hof. simpl.
  apply fetch_OK in Hof as [[Hfn ->] | (k & r & Hfs & _ & ->)].
  - f_equal. symmetry. apply bool_decide_eq_false_2. by intros [? _].
  - rewrite Hom. simpl. f_equal. apply bool_decide_ext.
    apply fetch_OK in Hom as [[Hmn ->] | (k' & r' & Hms & _ & ->)].
    + split; [by intros [? ?]|by intros [_ ?]].
    + split; [|eauto]. rewrite Hfs, Hms. done.
Qed.

(** The comprehension keeps the persons with a foreign key left NULL. *)
Lemma without_father_and_mother_OK g l :
  integrity g → Forall (λ p, p ∈ g) l →
  without_father_and_mother g l =
  OK (filter missing_a_parent l).
Proof.
  intros Hi. induction 1 as [|p l Hp _ IH]; [done|].
  destruct (integrity_resolves _ _ Hi Hp) as [Hm Hf].
  simpl. rewrite father_and_mother_OK, IH by done. simpl. f_equal.
  rewrite filter_cons. case_bool_decide as Hb; case_decide as Hd; try done.
  - destruct Hb as [Hb1 Hb2], Hd as [Hd|Hd]; done.
  - exfalso. unfold missing_a_parent in Hd.
    destruct (mother p), (father p); try (by apply Hd; eauto).
    by apply Hb.
Qed.

Lemma root_ancestors_OK g self l :
  integrity g → Forall (λ p, p ∈ g) l →
  root_ancestors g self l =
  OK (match filter missing_a_parent l with
      | [] => [self]
      | r :: rs => r :: rs
      end).
Proof.
  intros Hi Hl. unfold root_ancestors.
  rewrite without_father_and_mother_OK by done. simpl.
  by destruct (filter _ l).
Qed.

(** ** Ancestors as the keys of the walk's dictionary *)

Lemma chain_S_get g p a n : chain g p a (S n) → get g (pk a) = Some a.
Proof.
  remember (S n) as m eqn:Hm. intros Hc. revert n Hm.
  induction Hc as [|p q a m Hpq Hqa IH]; intros n Hm; [done|].
  injection Hm as ->. destruct n as [|n].
  - apply chain_0_inv in Hqa as ->. by destruct Hpq.
  - by eapply IH.
Qed.

Lemma elem_of_walk_keys limit g self offset d a :
  _ancestor_distances limit g self offset = OK d →
  a ∈ keys d ↔ ∃ n, chain g self a (S n).
Proof.
  intros Hd. rewrite elem_of_keys. split.
  - intros (k & v & Hk).
    destruct (walk_recorded _ _ _ _ _ Hd _ _ _ Hk) as (_ & n & Hn & _). eauto.
  - intros [n Hn].
    destruct (walk_complete _ _ _ _ _ _ _ Hd Hn) as [[a' v] Ha'].
    destruct (walk_recorded _ _ _ _ _ Hd _ _ _ Ha') as (Hg & _).
    rewrite (chain_S_get _ _ _ _ Hn) in Hg. injection Hg as <-. eauto.
Qed.

(** Climbing the mothers' line from any person ends at a person with a
    foreign key left NULL. *)
Lemma top_exists g self m a k :
  integrity g → acyclic g → self ∈ g →
  chain g self a k → (length g ≤ k + m)%nat →
  ∃ r j, chain g a r j ∧ missing_a_parent r.
Proof.
  intros Hi Hac Hs. revert a k. induction m as [|m IH]; intros a k Hc Hlen.
  - pose proof (chain_bound _ _ _ _ Hac Hs Hc). lia.
  - pose proof (chain_elem _ _ _ _ Hs Hc) as Ha.
    destruct (mother a) as [mk|] eqn:Hm.
    + destruct (integrity_resolves _ _ Hi Ha) as [Hres _].
      rewrite Hm in Hres. destruct Hres as [q Hq].
      pose proof (get_Some _ _ _ Hq) as [_ <-].
      assert (Haq : parent_of g a q) by (split; auto).
      destruct (IH q (S k)) as (r & j & Hr & Hnull).
      { by eapply chain_snoc. }
      { lia. }
      exists r, (S j). split; [by econstructor|done].
    + exists a, 0%nat. split; [constructor|by left].
Qed.

(** ** The relative set *)

Lemma ids_concat_descendants limit g l ds k :
  Forall2 (λ r d, descendants limit g r = OK d) l ds →
  k ∈ ids (concat ds) ↔ ∃ r x n, r ∈ l ∧ descent g r x (S n) ∧ pk x = k.
Proof.
  intros Hall. rewrite elem_of_ids. split.
  - intros (x & Hx & <-). apply elem_of_concat in Hx as (s & Hs & Hx).
    apply list_elem_of_lookup in Hs as [i Hi].
    destruct (Forall2_lookup_r _ _ _ _ _ Hall Hi) as (r & Hr & Hd).
    destruct (proj1 (elem_of_descendants _ _ _ _ x Hd) Hx) as [n Hn].
    exists r, x, n. split; [apply list_elem_of_lookup; eauto|done].
  - intros (r & x & n & Hr & Hn & <-). exists x. split; [|done].
    apply list_elem_of_lookup in Hr as [i Hi].
    destruct (Forall2_lookup_l _ _ _ _ _ Hall Hi) as (s & Hs & Hd).
    apply elem_of_concat. exists s. split; [apply list_elem_of_lookup; eauto|].
    apply (elem_of_descendants _ _ _ _ x Hd). eauto.
Qed.

Lemma descendants_each limit g l :
  integrity g → acyclic g → (length g ≤ limit)%nat → Forall (λ p, p ∈ g) l →
  ∃ ds, Forall2 (λ r d, descendants limit g r = OK d) l ds.
Proof.
  intros Hi Hac Hlen. induction 1 as [|p l Hp _ (ds & Hds)].
  - exists []. constructor.
  - destruct (descendants_total limit g p) as [d Hd].
    { intros x n Hn. pose proof (descent_bound _ _ _ _ Hi Hac Hp Hn). lia. }
    exists (d :: ds). by constructor.
Qed.

Lemma brute_force_OK limit g self l ds :
  Forall2 (λ a d, descendants limit g a = OK d) l ds →
  ∃ b, brute_force_relatives limit g self l = OK b ∧
       dom b = (ids l ∪ ids (concat ds)) ∖ {[pk self]}.
Proof.
  intros Hall. unfold brute_force_relatives.
  assert (∀ acc : pset, ∃ every,
    for_each (λ acc a, ds ← descendants limit g a;
                       OK (Set_update (Set_add acc a) ds)) l acc = OK every ∧
    dom every = ids l ∪ ids (concat ds) ∪ dom acc) as Hloop.
  { induction Hall as [|a d l ds Hd _ IH]; intros acc; simpl.
    - exists acc. split; [done|]. rewrite ids_nil. set_solver.
    - rewrite Hd. simpl. destruct (IH (Set_update (Set_add acc a) d))
        as (every & -> & Hdom).
      exists every. split; [done|].
      rewrite Hdom, dom_Set_update, dom_Set_add, ids_app, ids_cons.
      set_solver. }
  destruct (Hloop ∅) as (every & -> & Hdom). simpl.
  eexists. split; [done|]. rewrite dom_delete_L, Hdom, dom_empty_L. set_solver.
Qed.

Lemma relatives_from_OK dr limit g self anc roots ds :
  root_ancestors g self anc = OK roots →
  Forall2 (λ r d, descendants limit g r = OK d) roots ds →
  pk self ∈ ids roots ∪ ids (concat ds) →
  ∃ rs, relatives_from dr limit g self anc = OK rs ∧
        ids (fst <$> rs) = (ids roots ∪ ids (concat ds)) ∖ {[pk self]}.
Proof.
  intros Hroots Hall Hself. unfold relatives_from. rewrite Hroots. simpl.
  assert (for_each (λ relatives ancestor, ds ← descendants limit g ancestor;
                      OK (Set_update relatives ds)) roots (Set_update ∅ roots)
          = OK (foldl Set_update (Set_update ∅ roots) ds)) as ->.
  { apply for_each_OK. eauto. }
  simpl.
  assert (Hdom : dom (foldl Set_update (Set_update ∅ roots) ds)
                 = ids roots ∪ ids (concat ds)).
  { rewrite dom_foldl_Set_update, dom_Set_update, dom_empty_L. set_solver. }
  assert (Hkeyed : keyed (foldl Set_update (Set_update ∅ roots) ds)).
  { apply keyed_foldl_Set_update, keyed_Set_update. by intros k x. }
  destruct (Set_remove _ self) as [s|e] eqn:Hrm.
  - apply Set_remove_OK in Hrm as [_ ->]. simpl. eexists. split; [done|].
    rewrite <- list_fmap_compose.
    assert (∀ l : list Person,
      (fst ∘ (λ relative, (relative, dr g self relative))) <$> l = l) as ->.
    { intros l. induction l; [done|]. simpl. by f_equal. }
    rewrite ids_Set_elements by by apply keyed_delete.
    by rewrite dom_delete_L, Hdom.
  - exfalso. unfold Set_remove in Hrm.
    rewrite <- Hdom in Hself. apply elem_of_dom in Hself as [x Hx].
    by rewrite Hx in Hrm.
Qed.

Lemma descendants_not_self limit g self ds :
  integrity g → acyclic g → self ∈ g →
  descendants limit g self = OK ds → pk self ∉ ids ds.
Proof.
  intros Hi Hac Hs Hds (x & Hx & Hpk)%elem_of_ids.
  destruct (proj1 (elem_of_descendants _ _ _ _ x Hds) Hx) as [n Hn].
  pose proof (descent_elem _ _ _ _ Hs Hn) as Hxg.
  apply (pk_inj g) in Hpk; [|by destruct Hi|done..]. subst x.
  apply (Hac self n Hs). apply descent_chain; [by destruct Hi|done..].
Qed.

Lemma walk_keys_not_self limit g self offset d :
  integrity g → acyclic g → self ∈ g →
  _ancestor_distances limit g self offset = OK d → pk self ∉ ids (keys d).
Proof.
  intros Hi Hac Hs Hd (a & Ha & Hpk)%elem_of_ids.
  apply (elem_of_walk_keys _ _ _ _ _ _ Hd) in Ha as [n Hn].
  pose proof (chain_elem _ _ _ _ Hs Hn) as Hag.
  apply (pk_inj g) in Hpk; [|by destruct Hi|done..]. subst a.
  by apply (Hac self n Hs).
Qed.

(** Above every proper ancestor sits a root ancestor of the comprehension:
    the ancestor itself, or a person it descends from. *)
Lemma root_above limit g self d a :
  integrity g → gender_consistent g → acyclic g → self ∈ g →
  _ancestor_distances limit g self 0 = OK d → a ∈ keys d →
  ∃ r, r ∈ filter missing_a_parent (keys d) ∧
       (r = a ∨ ∃ n, descent g r a (S n)).
Proof.
  intros Hi Hgc Hac Hs Hd Ha.
  apply (elem_of_walk_keys _ _ _ _ _ _ Hd) in Ha as [k Hk].
  destruct (top_exists g self (length g) a (S k) Hi Hac Hs Hk) as (r & j & Hr & Hnull);
    [lia|].
  exists r. split.
  - apply list_elem_of_filter. split; [done|].
    apply (elem_of_walk_keys _ _ _ _ _ _ Hd).
    exists (k + j)%nat. apply (chain_app _ _ _ _ _ _ Hk Hr).
  - destruct j as [|j]; [left; by apply chain_0_inv in Hr|right].
    exists j. apply chain_descent; [done| |done].
    by eapply chain_elem.
Qed.

(** The relative set built from the root ancestors, the brute-force set
    and the descendants of [self], side by side. *)
Lemma relatives_sets dr limit g self :
  integrity g → gender_consistent g → acyclic g → self ∈ g →
  (length g ≤ limit)%nat →
  ∃ d rs b ds,
    _ancestor_distances limit g self 0 = OK d ∧
    relatives_from dr limit g self (keys d) = OK rs ∧
    brute_force_relatives limit g self (keys d) = OK b ∧
    descendants limit g self = OK ds ∧
    ids (fst <$> rs) = dom b ∪ ids ds ∧
    (keys d ≠ [] → ids (fst <$> rs) = dom b) ∧
    (pk self ∉ ids (fst <$> rs)) ∧ (pk self ∉ ids ds) ∧
    (pk self ∉ ids (keys d)).
Proof.
  intros Hi Hgc Hac Hs Hlen.
  destruct (walk_total limit g self 0 Hi Hs) as [d Hd].
  { intros a n Hn. pose proof (chain_bound _ _ _ _ Hac Hs Hn). lia. }
  pose proof (λ a, elem_of_walk_keys _ _ _ _ _ a Hd) as Hanc.
  assert (Hancg : Forall (λ p, p ∈ g) (keys d)).
  { apply Forall_forall. intros a [n Hn]%Hanc. by eapply chain_elem. }
  destruct (descendants_each limit g _ Hi Hac Hlen Hancg) as [dsA HdsA].
  destruct (descendants_each limit g [self] Hi Hac Hlen) as [dss Hdss];
    [by repeat constructor|].
  apply Forall2_cons_inv_l in Hdss as (ds & dss' & Hds & Hnil & ->).
  apply Forall2_nil_inv_l in Hnil as ->.
  destruct (brute_force_OK limit g self _ _ HdsA) as (b & Hb & Hdomb).
  pose proof (descendants_not_self _ _ _ _ Hi Hac Hs Hds) as Hself_ds.
  pose proof (walk_keys_not_self _ _ _ _ _ Hi Hac Hs Hd) as Hself_anc.
  pose proof (λ a, root_above _ _ _ _ a Hi Hgc Hac Hs Hd) as Habove.
  pose proof (root_ancestors_OK g self _ Hi Hancg) as Hroots.
  pose proof (λ k, ids_concat_descendants _ _ _ _ k HdsA) as HinA.
  assert (Hdesc_self : ∀ a, a ∈ keys d → ∃ n, descent g a self (S n)).
  { intros a [n Hn]%Hanc. exists n. by apply chain_descent. }
  assert (Hin_ds : ∀ k, k ∈ ids ds ↔ ∃ x n, descent g self x (S n) ∧ pk x = k).
  { intros k. rewrite elem_of_ids. split.
    - intros (x & Hx & <-).
      destruct (proj1 (elem_of_descendants _ _ _ _ x Hds) Hx) as [n Hn]. eauto.
    - intros (x & n & Hn & <-). exists x. split; [|done].
      apply (elem_of_descendants _ _ _ _ x Hds). eauto. }
  exists d. destruct (filter missing_a_parent (keys d)) as [|r0 rest] eqn:Hf.
  - (* nobody above [self] *)
    assert (Hnone : keys d = []).
    { destruct (keys d) as [|a l] eqn:Hk; [done|].
      destruct (Habove a) as (r & Hr & _); [left|]. by apply not_elem_of_nil in Hr. }
    rewrite Hnone in *. apply Forall2_nil_inv_l in HdsA as ->.
    destruct (relatives_from_OK dr limit g self [] [self] [ds])
      as (rs & Hrs & Hids); [done|by repeat constructor| |].
    { rewrite ids_cons. set_solver. }
    exists rs, b, ds. split_and!; try done.
    + rewrite Hids, Hdomb. simpl. rewrite app_nil_r, ids_cons, ids_nil. set_solver.
    + rewrite Hids. set_solver.
  - (* the comprehension is not empty *)
    assert (Hsub : ∀ r, r ∈ r0 :: rest → r ∈ keys d).
    { intros r Hr. rewrite <- Hf in Hr. by apply list_elem_of_filter in Hr as [_ ?]. }
    assert (Hrootsg : Forall (λ p, p ∈ g) (r0 :: rest)).
    { apply Forall_forall. intros r Hr%Hsub. rewrite Forall_forall in Hancg. auto. }
    destruct (descendants_each limit g _ Hi Hac Hlen Hrootsg) as [dsR HdsR].
    pose proof (λ k, ids_concat_descendants _ _ _ _ k HdsR) as HinR.
    destruct (Hdesc_self r0) as [n0 Hn0]; [apply Hsub; left|].
    destruct (relatives_from_OK dr limit g self (keys d) (r0 :: rest) dsR)
      as (rs & Hrs & Hids); [done|done| |].
    { apply elem_of_union_r, HinR. exists r0, self, n0. split; [left|done]. }
    assert (Hcore : ids (r0 :: rest) ∪ ids (concat dsR)
                    = ids (keys d) ∪ ids (concat dsA)).
    { apply set_eq. intros k. rewrite !elem_of_union, HinR, HinA, !elem_of_ids. split.
      - intros [(r & Hr & <-) | (r & x & n & Hr & Hn & <-)].
        + left. exists r. split; [by apply Hsub|done].
        + right. exists r, x, n. split; [by apply Hsub|done].
      - intros [(a & Ha & <-) | (a & x & n & Ha & Hn & <-)].
        + destruct (Habove a Ha) as (r & Hr & [<- | [m Hm]]).
          * left. eauto.
          * right. exists r, a, m. done.
        + right. destruct (Habove a Ha) as (r & Hr & [<- | [m Hm]]).
          * exists r, x, n. done.
          * exists r, x, (m + S n)%nat. split; [done|]. split; [|done].
            apply (descent_app _ _ _ _ _ _ Hm Hn). }
    assert (Hds_in : ids ds ⊆ ids (keys d) ∪ ids (concat dsA)).
    { intros k (x & n & Hn & <-)%Hin_ds. apply elem_of_union_r, HinA.
      exists r0, x, (n0 + S n)%nat. split; [apply Hsub; left|]. split; [|done].
      apply (descent_app _ _ _ _ _ _ Hn0 Hn). }
    exists rs, b, ds. split_and!; try done.
    + rewrite Hids, Hdomb, Hcore. set_solver.
    + intros _. by rewrite Hids, Hdomb, Hcore.
    + rewrite Hids. set_solver.
Qed.

(** ** Repetitions in the descendant list *)

Lemma NoDup_concat {A} (ls : list (list A)) :
  Forall NoDup ls →
  (∀ i j s t x, ls !! i = Some s → ls !! j = Some t → x ∈ s → x ∈ t → i = j) →
  NoDup (concat ls).
Proof.
  induction ls as [|s ls IH]; intros Hall Hdisj; [constructor|].
  apply Forall_cons in Hall as [Hs Hall]. simpl. apply NoDup_app. split_and!.
  - done.
  - intros x Hx (t & Ht & Hxt)%elem_of_concat.
    apply list_elem_of_lookup in Ht as [j Hj].
    by specialize (Hdisj 0%nat (S j) s t x eq_refl Hj Hx Hxt).
  - apply IH; [done|]. intros i j s' t x Hi Hj Hx Hxt.
    by specialize (Hdisj (S i) (S j) s' t x Hi Hj Hx Hxt) as [= ->].
Qed.

Lemma descendants_through limit g p l x :
  descendants limit g p = OK l → x ∈ l →
  ∃ c t, descent_through g p x (c :: t).
Proof.
  intros Hd Hx. destruct (proj1 (elem_of_descendants _ _ _ _ x Hd) Hx) as [n Hn].
  apply descent_descent_through in Hn as (t & Ht & Hlen).
  destruct t as [|c t]; [done|]. eauto.
Qed.

(** One child chain per descendant leaves the list without repetition. *)
Lemma descendants_NoDup limit g p l :
  NoDup (pk <$> g) →
  (∀ x l1 l2, descent_through g p x l1 → descent_through g p x l2 → l1 = l2) →
  descendants limit g p = OK l → NoDup l.
Proof.
  intros Hnd. revert p l. induction limit as [|n IH]; intros p l Huniq; [done|].
  intros (ls & Hls & ->)%descendants_OK.
  assert (Hch : NoDup (children g p)).
  { eapply NoDup_fmap_1. by apply NoDup_children. }
  assert (Hthrough : ∀ i c s x, children g p !! i = Some c → ls !! i = Some s →
            x ∈ s → ∃ c' t, descent_through g p x (c :: c' :: t)).
  { intros i c s x Hc Hs Hx.
    destruct (Forall2_lookup_l _ _ _ _ _ Hls Hc) as (s' & Hs' & Hd).
    rewrite Hs in Hs'. injection Hs' as <-.
    destruct (descendants_through _ _ _ _ _ Hd Hx) as (c' & t & Ht).
    exists c', t. econstructor; [|done].
    apply elem_of_children, list_elem_of_lookup. eauto. }
  apply NoDup_app. split_and!.
  - done.
  - intros x Hx (s & Hs & Hxs)%elem_of_concat.
    apply list_elem_of_lookup in Hs as [i Hi].
    destruct (Forall2_lookup_r _ _ _ _ _ Hls Hi) as (c & Hc & _).
    destruct (Hthrough _ _ _ _ Hc Hi Hxs) as (c' & t & Ht).
    assert (descent_through g p x [x]) as H1.
    { econstructor; [by apply elem_of_children|constructor]. }
    by specialize (Huniq _ _ _ H1 Ht).
  - apply NoDup_concat.
    + apply Forall_forall. intros s Hs.
      apply list_elem_of_lookup in Hs as [i Hi].
      destruct (Forall2_lookup_r _ _ _ _ _ Hls Hi) as (c & Hc & Hd).
      apply (IH c); [|done]. intros x l1 l2 H1 H2.
      assert (Hpc : child_of g p c).
      { apply elem_of_children, list_elem_of_lookup. eauto. }
      assert (c :: l1 = c :: l2) as [= ->]; [|done].
      apply (Huniq x); by econstructor.
    + intros i j s t x Hi Hj Hxs Hxt.
      destruct (Forall2_lookup_r _ _ _ _ _ Hls Hi) as (ci & Hci & _).
      destruct (Forall2_lookup_r _ _ _ _ _ Hls Hj) as (cj & Hcj & _).
      destruct (Hthrough _ _ _ _ Hci Hi Hxs) as (c1 & t1 & Ht1).
      destruct (Hthrough _ _ _ _ Hcj Hj Hxt) as (c2 & t2 & Ht2).
      specialize (Huniq _ _ _ Ht1 Ht2) as [= -> _].
      by eapply NoDup_lookup.
Qed.

Lemma NoDup_concat_inv {A} (ls : list (list A)) :
  NoDup (concat ls) →
  Forall NoDup ls ∧
  ∀ i j s t x, ls !! i = Some s → ls !! j = Some t → x ∈ s → x ∈ t → i = j.
Proof.
  induction ls as [|s0 ls IH]; simpl.
  - intros _. split; [constructor|]. by intros i j s t x Hi.
  - intros (Hs0 & Hdisj & Hrest)%NoDup_app. destruct (IH Hrest) as [Hall Hidx].
    split; [by constructor|]. intros [|i] [|j] s t x Hi Hj Hx Hxt; simpl in *.
    + done.
    + injection Hi as <-. exfalso. apply (Hdisj x Hx), elem_of_concat.
      exists t. split; [apply list_elem_of_lookup; eauto|done].
    + injection Hj as <-. exfalso. apply (Hdisj x Hxt), elem_of_concat.
      exists s. split; [apply list_elem_of_lookup; eauto|done].
    + f_equal. by eapply Hidx.
Qed.

Lemma descent_through_S_inv g p x c t :
  descent_through g p x (c :: t) → child_of g p c ∧ descent_through g c x t.
Proof. by inversion 1. Qed.

Lemma descent_through_nil_inv g p x : descent_through g p x [] → x = p.
Proof. by inversion 1. Qed.

(** Two child chains to one person leave that person twice in the list. *)
Lemma descendants_two_chains limit g p l x l1 l2 :
  integrity g → acyclic g → p ∈ g →
  descendants limit g p = OK l →
  descent_through g p x l1 → descent_through g p x l2 → l1 ≠ l2 →
  ¬ NoDup l.
Proof.
  intros Hi Hac. revert p l l1 l2.
  induction limit as [|n IH]; intros p l l1 l2 Hp; [done|].
  intros (ls & Hls & ->)%descendants_OK H1 H2 Hne
    (Hch & Hdisj & [Hall Hidx]%NoDup_concat_inv)%NoDup_app.
  assert (Hcyc : ∀ c t, ¬ descent_through g p p (c :: t)).
  { intros c t Ht%descent_through_descent. simpl in Ht.
    apply (Hac p (length t) Hp). apply descent_chain; [by destruct Hi|done..]. }
  assert (Hsub : ∀ c t, descent_through g p x (c :: t) →
            ∃ i s, children g p !! i = Some c ∧ ls !! i = Some s ∧
                   descendants n g c = OK s ∧ (t ≠ [] → x ∈ s) ∧
                   (t = [] → x = c)).
  { intros c t [Hpc Ht]%descent_through_S_inv.
    apply elem_of_children, list_elem_of_lookup in Hpc as [i Hi'].
    destruct (Forall2_lookup_l _ _ _ _ _ Hls Hi') as (s & Hs & Hd).
    exists i, s. split_and!; try done.
    - intros Htne. apply (elem_of_descendants _ _ _ _ x Hd).
      destruct t as [|c' t]; [done|]. exists (length t).
      by apply descent_through_descent in Ht.
    - intros ->. by apply descent_through_nil_inv in Ht. }
  destruct l1 as [|c1 t1], l2 as [|c2 t2]; [done| | |].
  - apply descent_through_nil_inv in H1 as ->. by eapply Hcyc.
  - apply descent_through_nil_inv in H2 as ->. by eapply Hcyc.
  - destruct (Hsub _ _ H1) as (i & s1 & Hc1 & Hs1 & Hd1 & Hin1 & Heq1).
    destruct (Hsub _ _ H2) as (j & s2 & Hc2 & Hs2 & Hd2 & Hin2 & Heq2).
    destruct (decide (c1 = c2)) as [->|Hc].
    + (* one child, two chains below it *)
      apply descent_through_S_inv in H1 as [[Hcg _] H1].
      apply descent_through_S_inv in H2 as [_ H2].
      apply (IH c2 s1 t1 t2 Hcg Hd1 H1 H2); [congruence|].
      rewrite Forall_forall in Hall. apply Hall, list_elem_of_lookup. eauto.
    + (* two children *)
      destruct t1 as [|c1' t1], t2 as [|c2' t2].
      * specialize (Heq1 eq_refl). specialize (Heq2 eq_refl). congruence.
      * apply (Hdisj x).
        -- rewrite Heq1 by done. apply list_elem_of_lookup. eauto.
        -- apply elem_of_concat. exists s2.
           split; [apply list_elem_of_lookup; eauto|by apply Hin2].
      * apply (Hdisj x).
        -- rewrite Heq2 by done. apply list_elem_of_lookup. eauto.
        -- apply elem_of_concat. exists s1.
           split; [apply list_elem_of_lookup; eauto|by apply Hin1].
      * assert (i = j) as ->.
        { apply (Hidx i j s1 s2 x); try done; [by apply Hin1|by apply Hin2]. }
        congruence.
Qed.

Lemma Forall2_concat_blocks {A B} (R : A → B → Prop) xss yss :
  Forall2 (Forall2 R) xss yss → Forall2 R (concat xss) (concat yss).
Proof. induction 1; simpl; [constructor|by apply Forall2_app]. Qed.

(** The returned list holds, position by position, the last person of
    each child chain below the person. *)
Lemma descendants_chains limit g p l :
  descendants limit g p = OK l →
  Forall2 (λ c x, descent_through g p x c) (chains_below limit g p) l.
Proof.
  revert p l. induction limit as [|n IH]; intros p l; [done|].
  intros (ls & Hls & ->)%descendants_OK. simpl.
  assert (Hch : Forall (child_of g p) (children g p)).
  { apply Forall_forall. intros c. by rewrite elem_of_children. }
  apply Forall2_app.
  - apply Forall2_fmap_l. apply Forall_Forall2_diag.
    eapply Forall_impl; [done|]. intros c Hc. simpl.
    econstructor; [done|constructor].
  - apply Forall2_concat_blocks. apply Forall2_fmap_l.
    induction Hls as [|c s cs ls Hd Hls IHls]; [constructor|].
    apply Forall_cons in Hch as [Hc Hch]. constructor; [|by apply IHls].
    simpl. apply Forall2_fmap_l. eapply Forall2_impl; [by apply IH|].
    intros t x Hx. simpl. by econstructor.
Qed.

Lemma chains_below_complete limit g p l x c :
  descendants limit g p = OK l → descent_through g p x c →
  c ≠ [] → c ∈ chains_below limit g p.
Proof.
  revert p l c. induction limit as [|n IH]; intros p l c; [done|].
  intros (ls & Hls & ->)%descendants_OK Hc Hne.
  destruct c as [|c0 t]; [done|].
  apply descent_through_S_inv in Hc as [Hpc Ht]. simpl.
  apply elem_of_children in Hpc.
  destruct t as [|c1 t].
  - apply elem_of_app. left. apply list_elem_of_fmap. by exists c0.
  - apply elem_of_app. right. apply elem_of_concat.
    exists ((c0 ::.) <$> chains_below n g c0). split.
    + apply list_elem_of_fmap. by exists c0.
    + apply list_elem_of_lookup in Hpc as [i Hi].
      destruct (Forall2_lookup_l _ _ _ _ _ Hls Hi) as (s & Hs & Hd).
      apply list_elem_of_fmap. exists (c1 :: t). split; [done|].
      by apply (IH c0 s).
Qed.

Lemma chains_below_sound limit g p c :
  c ∈ chains_below limit g p → c ≠ [] ∧ ∃ x, descent_through g p x c.
Proof.
  revert p c. induction limit as [|n IH]; intros p c; simpl.
  - by intros ?%not_elem_of_nil.
  - intros [Hc | Hc]%elem_of_app.
    + apply list_elem_of_fmap in Hc as (c0 & -> & Hc0). split; [done|].
      exists c0. econstructor; [by apply elem_of_children|constructor].
    + apply elem_of_concat in Hc as (s & Hs & Hc).
      apply list_elem_of_fmap in Hs as (c0 & -> & Hc0).
      apply list_elem_of_fmap in Hc as (t & -> & Ht). split; [done|].
      destruct (IH _ _ Ht) as (_ & x & Hx). exists x.
      econstructor; [by apply elem_of_children|done].
Qed.

Lemma NoDup_chains_below limit g p :
  NoDup (pk <$> g) → NoDup (chains_below limit g p).
Proof.
  intros Hnd. revert p. induction limit as [|n IH]; intros p; simpl; [constructor|].
  assert (Hch : NoDup (children g p)).
  { eapply NoDup_fmap_1. by apply NoDup_children. }
  apply NoDup_app. split_and!.
  - apply NoDup_fmap_2; [|done]. by intros c c' [= ->].
  - intros c (c0 & -> & _)%list_elem_of_fmap (s & Hs & Hc)%elem_of_concat.
    apply list_elem_of_fmap in Hs as (c1 & -> & _).
    apply list_elem_of_fmap in Hc as (t & [= -> <-] & Ht).
    by apply chains_below_sound in Ht as [? _].
  - apply NoDup_concat.
    + apply Forall_forall. intros s (c0 & -> & _)%list_elem_of_fmap.
      apply NoDup_fmap_2; [|done]. by intros t t' [= ->].
    + intros i j s t c Hi Hj Hs Ht.
      rewrite list_lookup_fmap in Hi, Hj.
      destruct (children g p !! i) as [ci|] eqn:Hci; [|done].
      destruct (children g p !! j) as [cj|] eqn:Hcj; [|done].
      simpl in Hi, Hj. injection Hi as <-. injection Hj as <-.
      apply list_elem_of_fmap in Hs as (t1 & -> & _).
      apply list_elem_of_fmap in Ht as (t2 & [= -> _] & _).
      by eapply NoDup_lookup.
Qed.

Lemma descent_through_end g p x y c :
  descent_through g p x c → descent_through g p y c → x = y.
Proof.
  intros Hx. revert y. induction Hx as [p|p c x t Hpc Hx IH]; intros y Hy.
  - by apply descent_through_nil_inv in Hy.
  - apply descent_through_S_inv in Hy as [_ Hy]. by apply IH.
Qed.

(** * The specification, statement by statement *)

(** ** Person.age *)

Lemma age_None today self :
  age today self = None ↔
  date_of_birth self = None ∨ (deceased self = true ∧ date_of_death self = None).
Proof.
  unfold age. destruct (date_of_birth self) as [birth|]; [|by split; eauto].
  destruct (deceased self), (date_of_death self) as [dd|]; simpl;
    repeat case_bool_decide; simpl; naive_solver.
Qed.

(** C6: [age] counts whole years from the date of birth to the date of death
    (deceased) or to today (living): the difference of the years, less one
    when the birthday has not yet come in the end year, which is the number of
    anniversaries of the birth that have passed; born 2000-06-15 and alive,
    a person is 19 on 2020-06-14 and 20 from 2020-06-15 to the end of that
    year; without a date of birth, or deceased without a date of death, the
    result is [None], and no call raises. *)
Theorem age_whole_years (today : date) (self : Person) :
  (date_of_birth self = None → age today self = None) ∧
  (deceased self = true → date_of_death self = None → age today self = None) ∧
  (∀ birth end_,
     date_of_birth self = Some birth → age_end today self = Some end_ →
     ∃ y, age today self = Some y ∧
          (month end_ < month birth ∨
           (month end_ = month birth ∧ day end_ < day birth) →
           y = year end_ - year birth - 1) ∧
          (¬ (month end_ < month birth ∨
              (month end_ = month birth ∧ day end_ < day birth)) →
           y = year end_ - year birth) ∧
          date_le (anniversary birth y) end_ ∧
          ¬ date_le (anniversary birth (y + 1)) end_) ∧
  (deceased self = false →
   age (Date 2020 6 14) (born (Date 2000 6 15) self) = Some 19) ∧
  (∀ m d, 6 < m ∨ (m = 6 ∧ 15 ≤ d) → deceased self = false →
          age (Date 2020 m d) (born (Date 2000 6 15) self) = Some 20).
Proof.
  split_and!.
  - intros Hb. apply age_None. by left.
  - intros Hd Hdd. apply age_None. by right.
  - intros birth end_ Hb He. unfold age, age_end in *. rewrite Hb.
    destruct (deceased self); simpl in *.
    + rewrite He. rewrite bool_decide_eq_true_2 by eauto. simpl.
      unfold date_le, anniversary. simpl.
      repeat case_bool_decide; simpl; eexists; (split; [done|]); lia.
    + injection He as ->. unfold date_le, anniversary. simpl.
      repeat case_bool_decide; simpl; eexists; (split; [done|]); lia.
  - intros Hliving. unfold age, born. simpl. by rewrite Hliving.
  - intros m d Hmd Hliving. unfold age, born. simpl. rewrite Hliving. simpl.
    repeat case_bool_decide; simpl; f_equal; lia.
Qed.

Example age_day_before_birthday :
  age (Date 2020 6 14) (born (Date 2000 6 15) nan) = Some 19.
Proof. reflexivity. Qed.

Example age_on_birthday :
  age (Date 2020 6 15) (born (Date 2000 6 15) nan) = Some 20.
Proof. reflexivity. Qed.

(** ** Person.clean *)

(** C9: [clean] raises [ValidationError] exactly when a date of death is
    recorded while the deceased flag is false; otherwise it returns; either
    way the person and the table are what they were. *)
Theorem clean_raises_iff (self : Person) (db : Store) :
  ((clean self db).1.1 =
     Raise (ValidationError "Cannot specify date of death for living person.")
   ↔ is_Some (date_of_death self) ∧ deceased self = false) ∧
  ((clean self db).1.1 = OK ()
   ↔ ¬ (is_Some (date_of_death self) ∧ deceased self = false)) ∧
  (clean self db).1.2 = self ∧ (clean self db).2 = db.
Proof.
  unfold clean.
  destruct (date_of_death self) as [dd|] eqn:Hdd, (deceased self) eqn:Hdec;
    simpl; split_and!; try done.
  all: split; try done.
  all: try (by intros [_ ?]); try (by intros [[? ?] _]); try (by intros _ [_ ?]);
    try (by intros _ [[? ?] _]).
  intros H. exfalso. apply H. eauto.
Qed.

(** ** Person.siblings *)

(** C10: a person with neither mother nor father recorded has no siblings:
    a NULL parent link matches no row, not even rows whose link on that side
    is NULL too. *)
Theorem siblings_of_parentless (g : Store) (self : Person) :
  mother self = None → father self = None → siblings g self = OK [].
Proof.
  intros Hm Hf. unfold siblings. rewrite Hm, Hf. simpl. f_equal.
  assert (filter (sibling_query (pk self) None None) g = []) as ->; [|done].
  induction g as [|r g IH]; [done|].
  rewrite filter_cons, IH. case_decide as Hq; [|done].
  destruct Hq as [_ [[Hn Heq] | [Hn Heq]]]; simpl in Heq; congruence.
Qed.

Lemma siblings_of_parentless_witness :
  (mother nan = None ∧ father nan = None) ∧
  mother mum = Some 1 ∧ mother aunt = Some 1 ∧
  siblings family mum = OK [aunt] ∧
  siblings family nan = OK [].
Proof.
  split; [by split|]. do 3 (split; [reflexivity|]).
  apply (siblings_of_parentless family nan); reflexivity.
Defined.

(** ** Person.ancestors *)

(** C5: the call [self.ancestor_distances()] names no attribute of the
    class, which defines [_ancestor_distances]; [ancestors] raises
    [AttributeError] for every person and returns no key set. *)
Theorem ancestors_raises_AttributeError (limit : nat) (g : Store) (self : Person) :
  ancestors limit g self = Raise (AttributeError "ancestor_distances") ∧
  ∀ dr, relatives dr limit g self = Raise (AttributeError "ancestor_distances").
Proof. split; [reflexivity|intros dr; reflexivity]. Qed.

(** ** The sample tables *)

Lemma family_integrity : integrity family.
Proof. split; compute_done. Qed.

Lemma family_gender_consistent : gender_consistent family.
Proof. compute_done. Qed.

Lemma family_acyclic : acyclic family.
Proof. apply (ranked_acyclic Z.to_nat). compute_done. Qed.

Lemma loop_integrity : integrity loop.
Proof. split; compute_done. Qed.

Lemma loop_cycle : chain loop ouro ouro 2.
Proof.
  apply (chain_up loop ouro boros); [split; [by left|done]|].
  apply (chain_up loop boros ouro); [split; [by left|done]|]. constructor.
Qed.

Lemma pair_integrity : integrity pair.
Proof. split; compute_done. Qed.

Lemma pair_acyclic : acyclic pair.
Proof. apply (ranked_acyclic Z.to_nat). compute_done. Qed.

(** ** Person._ancestor_distances *)

(** C1, as stated, fails: [nan] is two links above [kid] through [mum] and
    three through [dad] and [aunt]; the father's side is written last and the
    dictionary holds 3. *)
Lemma ancestor_distance_not_minimal :
  (_ancestor_distances 10 family kid 0 ≫= λ d, OK (d !! pk nan))
    = OK (Some (nan, 3)) ∧
  chain family kid nan 2.
Proof.
  split; [by vm_compute|].
  apply (chain_up family kid mum); [split; [by left|done]|].
  apply (chain_up family mum nan); [split; [by left|done]|]. constructor.
Qed.

(** C1, amended: in an acyclic table the walk from a person returns a
    dictionary whose keys are exactly the person's proper ancestors, each
    mapped to the length of the one parent chain to that ancestor that steps
    to the father whenever the ancestor is the father or above the father,
    and to the mother otherwise (the father's side is written last: the
    father is at distance 1 and every entry of the father's own walk, made
    with offset 1, is in the result, whatever the mother's side holds); that
    length is not always the least; when all chains to an ancestor have one
    length, the recorded distance is that length, hence the minimum. *)
Theorem ancestor_distances_chain_lengths (limit : nat) (g : Store) (self : Person) :
  integrity g → acyclic g → self ∈ g → (length g ≤ limit)%nat →
  ∃ d, _ancestor_distances limit g self 0 = OK d ∧
    (∀ a n, chain g self a (S n) → ∃ v, d !! pk a = Some (a, v)) ∧
    (∀ k a v, d !! k = Some (a, v) →
       k = pk a ∧ ∃ n, chain g self a (S n) ∧ v = Z.of_nat (S n)) ∧
    (∀ a v, d !! pk a = Some (a, v) ↔
            ∃ n, father_first g self a (S n) ∧ v = Z.of_nat (S n)) ∧
    (∀ a n m, father_first g self a n → father_first g self a m → n = m) ∧
    (∀ f, father self = Some (pk f) → get g (pk f) = Some f →
       d !! pk f = Some (f, 1) ∧
       ∃ df, _ancestor_distances limit g f 1 = OK df ∧
             ∀ k a v, df !! k = Some (a, v) → d !! k = Some (a, v)) ∧
    (∀ k a v, d !! k = Some (a, v) →
       (∀ n m, chain g self a n → chain g self a m → n = m) →
       ∀ n, chain g self a n → v = Z.of_nat n).
Proof.
  intros Hi Hac Hs Hlen.
  destruct (walk_total limit g self 0 Hi Hs) as [d Hd].
  { intros a n Hn. pose proof (chain_bound _ _ _ _ Hac Hs Hn). lia. }
  pose proof (walk_recorded _ _ _ _ _ Hd) as Hrec.
  assert (Hentry : ∀ a n, chain g self a (S n) → ∃ v, d !! pk a = Some (a, v)).
  { intros a n Hn.
    destruct (walk_complete _ _ _ _ _ _ _ Hd Hn) as [[a' v] Ha'].
    destruct (Hrec _ _ _ Ha') as (Hg & _).
    rewrite (chain_S_get _ _ _ _ Hn) in Hg. injection Hg as <-. eauto. }
  exists d. split_and!; [done|done|..].
  - intros k a v Hk. destruct (Hrec _ _ _ Hk) as (Hg & n & Hn & ->).
    apply get_Some in Hg as [_ <-]. split; [done|]. exists n. split; [done|lia].
  - intros a v. split.
    + intros Hk. destruct (walk_father_first _ _ _ _ _ _ _ _ Hd Hk) as (n & Hn & ->).
      exists n. split; [done|lia].
    + intros (n & Hn & ->).
      destruct (Hentry a n (father_first_chain _ _ _ _ Hn)) as [v Hv].
      destruct (walk_father_first _ _ _ _ _ _ _ _ Hd Hv) as (n' & Hn' & ->).
      rewrite Hv. do 2 f_equal.
      pose proof (father_first_unique _ _ _ _ _ Hac Hs Hn Hn'). lia.
  - intros a n m. by apply father_first_unique.
  - intros f Hfk Hg. pose proof (get_Some _ _ _ Hg) as [Hf _].
    destruct limit as [|n]; [done|].
    destruct (walk_total (S n) g f 1 Hi Hf) as [df Hdf].
    { intros a m Hm. pose proof (chain_bound _ _ _ _ Hac Hf Hm). lia. }
    destruct (walk_father_last n g self 0 d f df Hac Hd Hfk Hg Hdf)
      as [Hkeep Hone].
    split; [done|]. by exists df.
  - intros k a v Hk Huniq n Hn.
    destruct (Hrec _ _ _ Hk) as (_ & m & Hm & ->).
    by rewrite (Huniq _ _ Hn Hm).
Qed.

Lemma ancestor_distances_chain_lengths_witness :
  (integrity family ∧ acyclic family ∧ kid ∈ family ∧ (length family ≤ 10)%nat) ∧
  ∃ d, _ancestor_distances 10 family kid 0 = OK d ∧
       d !! pk dad = Some (dad, 1) ∧
       d !! pk nan = Some (nan, 3) ∧
       ∀ a n, chain family kid a (S n) → ∃ v, d !! pk a = Some (a, v).
Proof.
  assert (Hk : kid ∈ family) by compute_done.
  assert (Hl : (length family ≤ 10)%nat) by (simpl; lia).
  split; [by split_and!; [apply family_integrity|apply family_acyclic|..]|].
  destruct (ancestor_distances_chain_lengths 10 family kid
              family_integrity family_acyclic Hk Hl)
    as (d & Hd & Hall & _ & Hfirst & _ & Hf & _).
  exists d. split_and!; [done| | |done].
  - by apply (Hf dad).
  - apply Hfirst. exists 2%nat. split; [|done].
    apply (first_father family kid dad); [done..|].
    apply (first_mother family dad aunt); [done..| |by intros f k [=]].
    apply (first_mother family aunt nan); [done..| |by intros f k [=]].
    constructor.
Defined.

(** C2, as stated, fails: on two rows that name each other as mother, both
    traversals run into the recursion limit, whatever it is; neither returns
    and neither reports the cycle. *)
Lemma cycle_recursion_unbounded :
  (∀ limit, _ancestor_distances limit loop ouro 0 = Raise RuntimeError) ∧
  (∀ limit, descendants limit loop ouro = Raise RuntimeError).
Proof.
  split; intros limit.
  - apply (walk_diverge limit loop ouro 0 ouro 0 1);
      [apply loop_integrity|compute_done|constructor|apply loop_cycle].
  - apply (descendants_diverge limit loop ouro ouro 0 1); [constructor|].
    apply chain_descent; [compute_done|compute_done|apply loop_cycle].
Qed.

(** C2, amended: when a person on a cycle of the mother and father links
    is reached from [p] by a parent chain (of any length, none included), the
    ancestor walk from [p] never returns and never reports the cycle: whatever
    the recursion limit, it ends in the interpreter's recursion error; so
    does the descendant walk from [p] when such a person is reached from [p]
    by a child chain and the genders agree with the links. *)
Theorem traversals_of_cycle_exhaust_recursion
    (g : Store) (p q : Person) (k n : nat) :
  integrity g → p ∈ g → chain g q q (S n) →
  (chain g p q k →
   ∀ limit offset, _ancestor_distances limit g p offset = Raise RuntimeError) ∧
  (gender_consistent g → descent g p q k →
   ∀ limit, descendants limit g p = Raise RuntimeError).
Proof.
  intros Hi Hp Hc. split.
  - intros Hpq limit offset. by apply (walk_diverge limit g p offset q k n).
  - intros Hgc Hpq limit. apply (descendants_diverge limit g p q k n); [done|].
    apply chain_descent; [done| |done]. by eapply descent_elem.
Qed.

Lemma traversals_of_cycle_exhaust_recursion_witness :
  (integrity loop ∧ ouro ∈ loop ∧ chain loop ouro ouro 2 ∧
   gender_consistent loop) ∧
  _ancestor_distances 1000 loop ouro 0 = Raise RuntimeError ∧
  descendants 1000 loop ouro = Raise RuntimeError.
Proof.
  assert (Ho : ouro ∈ loop) by compute_done.
  assert (Hgc : gender_consistent loop) by compute_done.
  split; [by split_and!; [apply loop_integrity| |apply loop_cycle|]|].
  destruct (traversals_of_cycle_exhaust_recursion loop ouro ouro 0 1
              loop_integrity Ho loop_cycle) as [Hw Hd].
  split; [apply Hw; constructor|apply Hd; [done|constructor]].
Defined.

(** ** Person.relatives: the root ancestors *)

(** C3, as stated, fails: the ancestors of [kid] are [aunt], [dad], [mum]
    and [nan]; [mum] has a mother recorded and no father, and the
    comprehension of line 117 keeps her (and [aunt] and [dad]) among the
    roots. *)
Lemma root_ancestors_keep_one_sided :
  (_ancestor_distances 10 family kid 0 ≫= λ d, OK (keys d))
    = OK [aunt; dad; mum; nan] ∧
  root_ancestors family kid [aunt; dad; mum; nan] = OK [aunt; dad; mum; nan] ∧
  mother mum = Some 1 ∧ father mum = None.
Proof. split_and!; by vm_compute. Qed.

(** C3, amended: the root ancestors are exactly the ancestors for whom the
    mother or the father is unrecorded (one side is enough); when no
    ancestor is such, in particular when there is no ancestor, the person is
    the sole root. *)
Theorem root_ancestors_missing_a_parent (g : Store) (self : Person)
    (ancestors : list Person) :
  integrity g → Forall (λ p, p ∈ g) ancestors →
  ∃ roots, root_ancestors g self ancestors = OK roots ∧
    (ancestors = [] → roots = [self]) ∧
    (filter missing_a_parent ancestors = [] → roots = [self]) ∧
    (filter missing_a_parent ancestors ≠ [] →
       roots = filter missing_a_parent ancestors ∧
       ∀ p, p ∈ roots ↔ p ∈ ancestors ∧ (mother p = None ∨ father p = None)).
Proof.
  intros Hi Hall. eexists. split; [by apply root_ancestors_OK|].
  split_and!.
  - by intros ->.
  - by intros ->.
  - intros Hne. destruct (filter missing_a_parent ancestors) as [|r rs] eqn:Hf;
      [done|]. split; [done|]. intros p. rewrite <- Hf, list_elem_of_filter.
    unfold missing_a_parent. tauto.
Qed.

Lemma root_ancestors_missing_a_parent_witness :
  (integrity family ∧ Forall (λ p, p ∈ family) [aunt; dad; mum; nan]) ∧
  ∃ roots, root_ancestors family kid [aunt; dad; mum; nan] = OK roots ∧
           (filter missing_a_parent [aunt; dad; mum; nan] ≠ [] →
            roots = [aunt; dad; mum; nan]).
Proof.
  assert (Hall : Forall (λ p, p ∈ family) [aunt; dad; mum; nan]) by compute_done.
  split; [by split; [apply family_integrity|]|].
  destruct (root_ancestors_missing_a_parent family kid [aunt; dad; mum; nan]
              family_integrity Hall) as (roots & Hroots & _ & _ & Hne).
  exists roots. split; [done|]. intros H. by destruct (Hne H) as [-> _].
Defined.

(** ** Person.relatives: the relative set *)

(** C4, as stated, fails: [nan] has no ancestor, so she is the sole root and
    the set built from the roots holds her four descendants, while the
    brute-force union over her ancestors is empty; and [relatives] itself
    stops at its first statement. *)
Lemma relatives_of_parentless_person :
  _ancestor_distances 10 family nan 0 = OK ∅ ∧
  relatives_from (λ _ _ _, "") 10 family nan (keys ∅)
    = OK [(kid, ""); (aunt, ""); (dad, ""); (mum, "")] ∧
  brute_force_relatives 10 family nan (keys ∅) = OK ∅ ∧
  relatives (λ _ _ _, "") 10 family nan
    = Raise (AttributeError "ancestor_distances").
Proof. split_and!; by vm_compute. Qed.

(** C4, amended: in an acyclic table whose genders agree with the links,
    the body of [relatives], run on the key set of the ancestor walk, returns
    a set equal to the brute-force union of every ancestor with its
    descendants, minus the person, together with the person's own
    descendants; for a person with at least one ancestor that is the
    brute-force union itself. *)
Theorem relatives_from_roots_brute_force
    (dr : Store → Person → Person → string) (limit : nat) (g : Store)
    (self : Person) :
  integrity g → gender_consistent g → acyclic g → self ∈ g →
  (length g ≤ limit)%nat →
  ∃ d rs b ds,
    _ancestor_distances limit g self 0 = OK d ∧
    relatives_from dr limit g self (keys d) = OK rs ∧
    brute_force_relatives limit g self (keys d) = OK b ∧
    descendants limit g self = OK ds ∧
    ids (fst <$> rs) = dom b ∪ ids ds ∧
    (keys d ≠ [] → ids (fst <$> rs) = dom b).
Proof.
  intros Hi Hgc Hac Hs Hlen.
  destruct (relatives_sets dr limit g self Hi Hgc Hac Hs Hlen)
    as (d & rs & b & ds & Hd & Hrs & Hb & Hds & Heq & Hne & _).
  exists d, rs, b, ds. by split_and!.
Qed.

Lemma relatives_from_roots_brute_force_witness :
  (integrity family ∧ gender_consistent family ∧ acyclic family ∧
   kid ∈ family ∧ (length family ≤ 10)%nat) ∧
  ∃ rs b,
    relatives_from (λ _ _ _, "") 10 family kid [aunt; dad; mum; nan] = OK rs ∧
    brute_force_relatives 10 family kid [aunt; dad; mum; nan] = OK b ∧
    ids (fst <$> rs) = dom b.
Proof.
  assert (Hk : kid ∈ family) by compute_done.
  assert (Hl : (length family ≤ 10)%nat) by (simpl; lia).
  split.
  { by split_and!; [apply family_integrity|apply family_gender_consistent|
                    apply family_acyclic|..]. }
  destruct (relatives_from_roots_brute_force (λ _ _ _, "") 10 family kid
              family_integrity family_gender_consistent family_acyclic Hk Hl)
    as (d & rs & b & ds & Hd & Hrs & Hb & _ & _ & Hne).
  assert (Hkeys : keys d = [aunt; dad; mum; nan]).
  { assert (_ancestor_distances 10 family kid 0 ≫= (λ d, OK (keys d))
            = OK [aunt; dad; mum; nan]) as H by (by vm_compute).
    rewrite Hd in H. simpl in H. by injection H. }
  rewrite Hkeys in *. exists rs, b. split_and!; [done..|]. by apply Hne.
Defined.

(** ** Person.descendants *)

(** C7, as stated, fails: [kid] descends from [nan] through [mum] and
    through [aunt] and [dad], and the list holds [kid] twice. *)
Lemma descendants_repeat_a_person :
  descendants 10 family nan = OK [mum; aunt; kid; dad; kid] ∧
  ¬ NoDup (pk <$> [mum; aunt; kid; dad; kid]).
Proof.
  split; [by vm_compute|]. intros H.
  apply NoDup_cons in H as [_ H]. apply NoDup_cons in H as [_ H].
  apply NoDup_cons in H as [H _]. apply H. compute_done.
Qed.

(** C7, amended: in an acyclic table, [descendants] returns the persons a
    child chain from the person reaches, once for every such chain: the list
    is, position by position, the list of the last persons of a repetition
    free enumeration of all the child chains below the person; so a person
    reached by two chains stands at two positions of the list, and the list
    holds nobody twice exactly when each of them is reached by one chain
    only; the walk itself removes no repetition. *)
Theorem descendants_NoDup_single_chains (limit : nat) (g : Store) (self : Person) :
  integrity g → acyclic g → self ∈ g → (length g ≤ limit)%nat →
  ∃ l, descendants limit g self = OK l ∧
       (∀ x, x ∈ l ↔ ∃ n, descent g self x (S n)) ∧
       (∃ cs, NoDup cs ∧
              (∀ c, c ∈ cs ↔ c ≠ [] ∧ ∃ x, descent_through g self x c) ∧
              Forall2 (λ c x, descent_through g self x c) cs l) ∧
       (∀ x l1 l2, descent_through g self x l1 → descent_through g self x l2 →
                   l1 ≠ l2 →
                   ∃ i j, i ≠ j ∧ l !! i = Some x ∧ l !! j = Some x) ∧
       (NoDup (pk <$> l) ↔
        ∀ x l1 l2, descent_through g self x l1 → descent_through g self x l2 →
                   l1 = l2).
Proof.
  intros Hi Hac Hs Hlen.
  destruct (descendants_total limit g self) as [l Hl].
  { intros x n Hn. pose proof (descent_bound _ _ _ _ Hi Hac Hs Hn). lia. }
  pose proof (descendants_chains _ _ _ _ Hl) as Hends.
  assert (Hcs : ∀ c, c ∈ chains_below limit g self ↔
                     c ≠ [] ∧ ∃ x, descent_through g self x c).
  { intros c. split; [apply chains_below_sound|].
    intros (Hne & x & Hx). by apply (chains_below_complete _ _ _ l x). }
  exists l. split_and!; [done| | | |].
  - intros x. by apply (elem_of_descendants limit).
  - exists (chains_below limit g self). split_and!; [|done..].
    apply NoDup_chains_below. by destruct Hi.
  - intros x l1 l2 H1 H2 Hne.
    assert (Hcyc : ∀ c t, ¬ descent_through g self self (c :: t)).
    { intros c t Ht%descent_through_descent. simpl in Ht.
      apply (Hac self (length t) Hs).
      apply descent_chain; [by destruct Hi|done..]. }
    assert (Hpos : ∀ c, descent_through g self x c → c ≠ [] →
              ∃ i, chains_below limit g self !! i = Some c ∧ l !! i = Some x).
    { intros c Hc Hcne.
      assert (c ∈ chains_below limit g self) as [i Hci]%list_elem_of_lookup.
      { apply Hcs. eauto. }
      destruct (Forall2_lookup_l _ _ _ _ _ Hends Hci) as (y & Hy & Hyc).
      exists i. split; [done|]. by rewrite (descent_through_end _ _ _ _ _ Hc Hyc). }
    destruct l1 as [|c1 t1].
    { apply descent_through_nil_inv in H1 as ->.
      destruct l2 as [|c2 t2]; [done|]. by destruct (Hcyc c2 t2). }
    destruct l2 as [|c2 t2].
    { apply descent_through_nil_inv in H2 as ->. by destruct (Hcyc c1 t1). }
    destruct (Hpos _ H1) as (i & Hci & Hli); [done|].
    destruct (Hpos _ H2) as (j & Hcj & Hlj); [done|].
    exists i, j. split_and!; [|done..]. intros ->. congruence.
  - split.
    + intros Hnd%NoDup_fmap_1 x l1 l2 H1 H2.
      destruct (decide (l1 = l2)) as [|Hne]; [done|].
      by destruct (descendants_two_chains _ _ _ _ _ _ _ Hi Hac Hs Hl H1 H2 Hne).
    + intros Huniq. apply NoDup_fmap_2_strong.
      * intros x y Hx Hy Hpk.
        apply (elem_of_descendants _ _ _ _ x Hl) in Hx as [n Hn].
        apply (elem_of_descendants _ _ _ _ y Hl) in Hy as [m Hm].
        apply (pk_inj g); [by destruct Hi|by eapply descent_elem..|done].
      * eapply descendants_NoDup; [by destruct Hi|done..].
Qed.

Lemma pair_chains x l :
  descent_through pair eve x l → (x = eve ∧ l = []) ∨ (x = abel ∧ l = [abel]).
Proof.
  inversion 1 as [|p c x' t [Hc Hfk] Ht]; subst; [by left|right].
  simpl in Hfk.
  apply elem_of_cons in Hc as [->|Hc]; [done|].
  apply list_elem_of_singleton in Hc as ->.
  inversion Ht as [|p c x' t' [Hc' Hfk'] Ht']; subst; [done|].
  simpl in Hfk'.
  apply elem_of_cons in Hc' as [->|Hc']; [done|].
  by apply list_elem_of_singleton in Hc' as ->.
Qed.

Lemma descendants_NoDup_single_chains_witness :
  ((integrity pair ∧ acyclic pair ∧ eve ∈ pair ∧ (length pair ≤ 10)%nat) ∧
   ∃ l, descendants 10 pair eve = OK l ∧ NoDup (pk <$> l) ∧ abel ∈ l) ∧
  ((integrity family ∧ acyclic family ∧ nan ∈ family ∧
    (length family ≤ 10)%nat) ∧
   ∃ l, descendants 10 family nan = OK l ∧
        ∃ i j, i ≠ j ∧ l !! i = Some kid ∧ l !! j = Some kid).
Proof.
  assert (He : eve ∈ pair) by compute_done.
  assert (Hl : (length pair ≤ 10)%nat) by (simpl; lia).
  assert (Hn : nan ∈ family) by compute_done.
  assert (Hf : (length family ≤ 10)%nat) by (simpl; lia).
  split.
  - split; [by split_and!; [apply pair_integrity|apply pair_acyclic|..]|].
    destruct (descendants_NoDup_single_chains 10 pair eve
                pair_integrity pair_acyclic He Hl) as (l & Hd & Hin & _ & _ & Hnd).
    exists l. split_and!; [done| |].
    + apply Hnd.
      intros x l1 l2 [[-> ->] | [-> ->]]%pair_chains [[? ->] | [? ->]]%pair_chains;
        done.
    + apply Hin. exists 0%nat.
      apply (descent_down pair eve abel); [|constructor].
      split; [compute_done|done].
  - split; [by split_and!; [apply family_integrity|apply family_acyclic|..]|].
    destruct (descendants_NoDup_single_chains 10 family nan
                family_integrity family_acyclic Hn Hf) as (l & Hd & _ & _ & Htwo & _).
    exists l. split; [done|].
    apply (Htwo kid [mum; kid] [aunt; dad; kid]); [| |done].
    + apply (dthrough_down family nan mum); [split; [compute_done|done]|].
      apply (dthrough_down family mum kid); [split; [compute_done|done]|].
      constructor.
    + apply (dthrough_down family nan aunt); [split; [compute_done|done]|].
      apply (dthrough_down family aunt dad); [split; [compute_done|done]|].
      apply (dthrough_down family dad kid); [split; [compute_done|done]|].
      constructor.
Defined.

(** ** A person is not among their own relations *)

Lemma relatives_from_inv dr limit g self anc rs :
  relatives_from dr limit g self anc = OK rs →
  ∃ roots ds, root_ancestors g self anc = OK roots ∧
    Forall2 (λ r d, descendants limit g r = OK d) roots ds ∧
    ids (fst <$> rs) = (ids roots ∪ ids (concat ds)) ∖ {[pk self]}.
Proof.
  intros Hrs. pose proof Hrs as Hrs'. unfold relatives_from in Hrs'.
  apply bind_OK in Hrs' as (roots & Hroots & Hrest).
  apply bind_OK in Hrest as (s & Hloop & Hrest).
  apply for_each_OK in Hloop as (ds & Hds & ->).
  apply bind_OK in Hrest as (s' & [Hin _]%Set_remove_OK & _).
  rewrite dom_foldl_Set_update, dom_Set_update, dom_empty_L in Hin.
  destruct (relatives_from_OK dr limit g self anc roots ds Hroots Hds)
    as (rs' & Hrs' & Hids); [set_solver|].
  rewrite Hrs in Hrs'. injection Hrs' as <-. eauto.
Qed.

(** C8: in an acyclic table the ancestor walk from a person returns a
    dictionary that has no key for the person, [descendants] returns a list
    without the person, and whatever the body of [relatives] returns pairs
    no relationship with the person (persons compared by primary key); the
    body does return, on the key set of the walk, when the genders agree
    with the links. *)
Theorem self_not_among_relations
    (dr : Store → Person → Person → string) (limit : nat) (g : Store)
    (self : Person) :
  integrity g → acyclic g → self ∈ g → (length g ≤ limit)%nat →
  (∃ d, _ancestor_distances limit g self 0 = OK d ∧ d !! pk self = None ∧
        (pk self ∉ ids (keys d))) ∧
  (∃ ds, descendants limit g self = OK ds ∧ (pk self ∉ ids ds)) ∧
  (∀ ancestors rs,
     relatives_from dr limit g self ancestors = OK rs →
     pk self ∉ ids (fst <$> rs)) ∧
  (gender_consistent g →
   ∃ d rs, _ancestor_distances limit g self 0 = OK d ∧
           relatives_from dr limit g self (keys d) = OK rs ∧
           (pk self ∉ ids (fst <$> rs))).
Proof.
  intros Hi Hac Hs Hlen. split_and!.
  - destruct (walk_total limit g self 0 Hi Hs) as [d Hd].
    { intros a n Hn. pose proof (chain_bound _ _ _ _ Hac Hs Hn). lia. }
    pose proof (walk_keys_not_self _ _ _ _ _ Hi Hac Hs Hd) as Hn.
    exists d. split_and!; [done| |done].
    destruct (d !! pk self) as [[a v]|] eqn:Hk; [|done].
    destruct (walk_recorded _ _ _ _ _ Hd _ _ _ Hk) as (Hg & _).
    apply get_Some in Hg as [_ Hpk]. exfalso. apply Hn, elem_of_ids.
    exists a. split; [|done]. apply elem_of_keys. eauto.
  - destruct (descendants_total limit g self) as [ds Hds].
    { intros x n Hn. pose proof (descent_bound _ _ _ _ Hi Hac Hs Hn). lia. }
    exists ds. split; [done|].
    apply (descendants_not_self _ _ _ _ Hi Hac Hs Hds).
  - intros anc rs (roots & ds & _ & _ & Hids)%relatives_from_inv.
    rewrite Hids. set_solver.
  - intros Hgc.
    destruct (relatives_sets dr limit g self Hi Hgc Hac Hs Hlen)
      as (d & rs & _ & _ & Hd & Hrs & _ & _ & _ & _ & Hn & _).
    by exists d, rs.
Qed.

Lemma self_not_among_relations_witness :
  (integrity family ∧ acyclic family ∧ kid ∈ family ∧
   (length family ≤ 10)%nat ∧ gender_consistent family) ∧
  (∃ d, _ancestor_distances 10 family kid 0 = OK d ∧ (pk kid ∉ ids (keys d))) ∧
  (∃ ds, descendants 10 family kid = OK ds ∧ (pk kid ∉ ids ds)) ∧
  (∃ d rs, _ancestor_distances 10 family kid 0 = OK d ∧
           relatives_from (λ _ _ _, "") 10 family kid (keys d) = OK rs ∧
           (pk kid ∉ ids (fst <$> rs))).
Proof.
  assert (Hk : kid ∈ family) by compute_done.
  assert (Hl : (length family ≤ 10)%nat) by (simpl; lia).
  split.
  { by split_and!; [apply family_integrity|apply family_acyclic|..|
                    apply family_gender_consistent]. }
  destruct (self_not_among_relations (λ _ _ _, "") 10 family kid
              family_integrity family_acyclic Hk Hl)
    as ((d & Hd & _ & Hnd) & (ds & Hds & Hnds) & _ & Hrel).
  destruct (Hrel family_gender_consistent) as (d' & rs & Hd' & Hrs & Hnrs).
  split_and!; [by exists d|by exists ds|]. exists d', rs. by split_and!.
Defined.

(** * Further properties of the model *)

(** ** Person.name *)

Lemma string_append_assoc (a b c : string) :
  (a +:+ b) +:+ c = a +:+ (b +:+ c).
Proof.
  induction a as [|x a IH]; [done|].
  change (String x ((a +:+ b) +:+ c) = String x (a +:+ (b +:+ c))).
  by rewrite IH.
Qed.

(** X1: a name always begins with the forename and a space; asking for the
    middle names changes nothing for a person without middle names, and
    asking for the maiden name changes nothing for a person without one;
    with a maiden name asked for and present the surname does not follow
    the given names, the maiden name does. *)
Theorem name_shape (self : Person) (use_middle_names use_maiden_name : bool) :
  (∃ rest, name self use_middle_names use_maiden_name
           = forename self +:+ " " +:+ rest) ∧
  (middle_names self = "" →
   name self use_middle_names use_maiden_name
   = name self false use_maiden_name) ∧
  (maiden_name self = "" →
   name self use_middle_names use_maiden_name
   = name self use_middle_names false) ∧
  (maiden_name self ≠ "" →
   name self false true = forename self +:+ " " +:+ maiden_name self ∧
   name self false false
   = forename self +:+ " " +:+ surname self +:+ nee +:+ maiden_name self +:+ ")").
Proof.
  unfold name. split_and!.
  - destruct use_middle_names, use_maiden_name;
      repeat case_bool_decide; simpl; try rewrite string_append_assoc; eauto.
  - intros ->. by destruct use_middle_names.
  - intros ->. by destruct use_maiden_name.
  - intros Hm. simpl. rewrite bool_decide_eq_false_2 by done. done.
Qed.

(** ** Person.age, further *)

(** X2: for a living person with a date of birth, [age] never decreases
    as today advances. *)
Theorem age_monotone (today1 today2 : date) (self : Person) :
  deceased self = false → is_Some (date_of_birth self) →
  date_le today1 today2 →
  ∃ y1 y2, age today1 self = Some y1 ∧ age today2 self = Some y2 ∧ y1 ≤ y2.
Proof.
  intros Hl [birth Hb] Hle. unfold age. rewrite Hb, Hl. simpl.
  unfold date_le in Hle.
  repeat case_bool_decide; simpl; do 2 eexists; (split_and!; [done..|]); lia.
Qed.

Lemma age_monotone_witness :
  (deceased (born (Date 2000 6 15) nan) = false ∧
   is_Some (date_of_birth (born (Date 2000 6 15) nan)) ∧
   date_le (Date 2020 6 14) (Date 2021 1 1)) ∧
  ∃ y1 y2, age (Date 2020 6 14) (born (Date 2000 6 15) nan) = Some y1 ∧
           age (Date 2021 1 1) (born (Date 2000 6 15) nan) = Some y2 ∧ y1 ≤ y2.
Proof.
  assert (Hle : date_le (Date 2020 6 14) (Date 2021 1 1)) by compute_done.
  split; [by split_and!; [|eexists|]|].
  apply (age_monotone (Date 2020 6 14) (Date 2021 1 1)
           (born (Date 2000 6 15) nan)); [done|by eexists|done].
Defined.

(** X3: [age] does not check that the end date follows the birth: its
    result is negative exactly when the date it counts up to lies before the
    date of birth. *)
Theorem age_sign (today : date) (self : Person) (birth end_ : date) (y : Z) :
  date_of_birth self = Some birth → age_end today self = Some end_ →
  age today self = Some y → (0 ≤ y ↔ date_le birth end_).
Proof.
  unfold age, age_end, date_le. intros -> He.
  destruct (deceased self); simpl in *.
  - rewrite He. rewrite bool_decide_eq_true_2 by eauto. simpl.
    repeat case_bool_decide; simpl; intros [= <-]; lia.
  - injection He as ->.
    repeat case_bool_decide; simpl; intros [= <-]; lia.
Qed.

Lemma age_sign_witness :
  (date_of_birth (born (Date 2000 6 15) nan) = Some (Date 2000 6 15) ∧
   age_end (Date 1999 1 1) (born (Date 2000 6 15) nan) = Some (Date 1999 1 1) ∧
   age (Date 1999 1 1) (born (Date 2000 6 15) nan) = Some (-2)) ∧
  (0 ≤ -2 ↔ date_le (Date 2000 6 15) (Date 1999 1 1)).
Proof.
  split; [by split_and!|].
  by apply (age_sign (Date 1999 1 1) (born (Date 2000 6 15) nan)).
Defined.

(** X4: a person that [clean] accepts and that has a date of death is
    deceased, so the age is counted to that date and is the same whatever
    today is. *)
Theorem age_of_clean_dead (today today' : date) (self : Person) (db : Store) :
  (clean self db).1.1 = OK () → is_Some (date_of_death self) →
  deceased self = true ∧ age today self = age today' self.
Proof.
  unfold clean, age. intros Hc [dd Hdd]. rewrite Hdd in *.
  destruct (deceased self); simpl in *; [|done].
  split; [done|]. by destruct (date_of_birth self).
Qed.

Lemma age_of_clean_dead_witness :
  let late := {| pk := 9; forename := "A"; middle_names := ""; surname := "B";
                 maiden_name := ""; gender := Female;
                 date_of_birth := Some (Date 1900 3 1);
                 date_of_death := Some (Date 1980 2 28); deceased := true;
                 mother := None; father := None; notes := "" |} in
  ((clean late []).1.1 = OK () ∧ is_Some (date_of_death late)) ∧
  age (Date 2000 1 1) late = Some 79 ∧ age (Date 2020 1 1) late = Some 79.
Proof.
  intros late. split; [by split; [|eexists]|].
  destruct (age_of_clean_dead (Date 2000 1 1) (Date 2020 1 1) late [])
    as [_ Heq]; [done|by eexists|].
  split; [done|]. by rewrite <- Heq.
Defined.

(** ** Person.siblings, further *)

Lemma fetch_pk g fk o :
  fetch g fk = OK o → pk <$> o = fk.
Proof.
  intros [[-> ->] | (k & r & -> & Hg & ->)]%fetch_OK; [done|].
  apply get_Some in Hg as [_ <-]. done.
Qed.

(** The siblings of a row of the table: the other rows that share a
    recorded father or a recorded mother. *)
Lemma elem_of_siblings g p :
  integrity g → p ∈ g →
  ∃ l, siblings g p = OK l ∧
    ∀ r, r ∈ l ↔
      r ∈ g ∧ pk r ≠ pk p ∧
      ((father r ≠ None ∧ father r = father p) ∨
       (mother r ≠ None ∧ mother r = mother p)).
Proof.
  intros Hi Hp. destruct (integrity_resolves _ _ Hi Hp) as [Hm Hf].
  destruct (fetch_resolves _ _ Hf) as [f Hff].
  destruct (fetch_resolves _ _ Hm) as [m Hfm].
  unfold siblings. rewrite Hff, Hfm. simpl. eexists. split; [done|].
  intros r. rewrite order_by_Permutation, list_elem_of_filter.
  unfold sibling_query. rewrite (fetch_pk _ _ _ Hff), (fetch_pk _ _ _ Hfm).
  tauto.
Qed.

(** X5: among the rows of a table with resolving keys, being a sibling is
    symmetric, and nobody is their own sibling. *)
Theorem siblings_symmetric (g : Store) (p q : Person) :
  integrity g → p ∈ g → q ∈ g →
  ∃ lp lq, siblings g p = OK lp ∧ siblings g q = OK lq ∧
           (q ∈ lp ↔ p ∈ lq) ∧ (pk p ∉ ids lp).
Proof.
  intros Hi Hp Hq.
  destruct (elem_of_siblings g p Hi Hp) as (lp & Hlp & Hinp).
  destruct (elem_of_siblings g q Hi Hq) as (lq & Hlq & Hinq).
  exists lp, lq. split_and!; [done..| |].
  - rewrite Hinp, Hinq. split.
    + intros (_ & Hne & [[Hn He] | [Hn He]]); split_and!; try done;
        [left|right]; rewrite <- He; done.
    + intros (_ & Hne & [[Hn He] | [Hn He]]); split_and!; try done;
        [left|right]; rewrite <- He; done.
  - intros (r & Hr & Hpk)%elem_of_ids. apply Hinp in Hr as (_ & Hne & _). done.
Qed.

Lemma siblings_symmetric_witness :
  (integrity family ∧ mum ∈ family ∧ aunt ∈ family) ∧
  ∃ lp lq, siblings family mum = OK lp ∧ siblings family aunt = OK lq ∧
           aunt ∈ lp ∧ mum ∈ lq.
Proof.
  assert (Hm : mum ∈ family) by compute_done.
  assert (Ha : aunt ∈ family) by compute_done.
  split; [by split_and!; [apply family_integrity|..]|].
  destruct (siblings_symmetric family mum aunt family_integrity Hm Ha)
    as (lp & lq & Hlp & Hlq & Hsym & _).
  exists lp, lq. split_and!; [done..| |].
  - assert (siblings family mum = OK [aunt]) as H by reflexivity.
    rewrite Hlp in H. injection H as ->. by left.
  - apply Hsym.
    assert (siblings family mum = OK [aunt]) as H by reflexivity.
    rewrite Hlp in H. injection H as ->. by left.
Defined.

Lemma siblings_children g p :
  integrity g → gender_consistent g → p ∈ g →
  ∃ l, siblings g p = OK l ∧
    ∀ r, r ∈ l ↔
      pk r ≠ pk p ∧ ∃ parent, parent_of g p parent ∧ r ∈ children g parent.
Proof.
  intros Hi Hgc Hp.
  destruct (elem_of_siblings g p Hi Hp) as (l & Hl & Hin).
  exists l. split; [done|]. intros r. rewrite Hin. clear Hin Hl.
  destruct (integrity_resolves _ _ Hi Hp) as [Hm Hf].
  unfold gender_consistent in Hgc. rewrite Forall_forall in Hgc.
  destruct (Hgc p Hp) as [Hgm Hgf]. split.
  - intros (Hr & Hne & [[Hn He] | [Hn He]]); (split; [done|]).
    + destruct (father p) as [k|] eqn:Hk; [|congruence].
      destruct Hf as [par Hpar]. pose proof (get_Some _ _ _ Hpar) as [_ <-].
      simpl in Hgf. rewrite Hpar in Hgf. injection Hgf as Hmale.
      exists par. split; [split; auto|].
      apply elem_of_children. split; [done|]. by rewrite Hmale.
    + destruct (mother p) as [k|] eqn:Hk; [|congruence].
      destruct Hm as [par Hpar]. pose proof (get_Some _ _ _ Hpar) as [_ <-].
      simpl in Hgm. rewrite Hpar in Hgm. injection Hgm as Hfem.
      exists par. split; [split; auto|].
      apply elem_of_children. split; [done|]. by rewrite Hfem.
  - intros (Hne & par & [[Hfk|Hfk] Hget] & [Hr Hc]%elem_of_children);
      (split_and!; [done..|]).
    + rewrite Hfk in Hgm. simpl in Hgm. rewrite Hget in Hgm.
      injection Hgm as Hfem. rewrite Hfem in Hc. right. rewrite Hc, Hfk. done.
    + rewrite Hfk in Hgf. simpl in Hgf. rewrite Hget in Hgf.
      injection Hgf as Hmale. rewrite Hmale in Hc. left. rewrite Hc, Hfk. done.
Qed.

(** X6: when the genders agree with the links, the siblings of a person
    are the children of the person's mother and of the person's father, the
    person left out. *)
Theorem siblings_are_children_of_parents (g : Store) (p : Person) :
  integrity g → gender_consistent g → p ∈ g →
  ∃ l, siblings g p = OK l ∧
    ∀ r, r ∈ l ↔
      pk r ≠ pk p ∧ ∃ parent, parent_of g p parent ∧ r ∈ children g parent.
Proof. apply siblings_children. Qed.

Lemma siblings_are_children_of_parents_witness :
  (integrity family ∧ gender_consistent family ∧ mum ∈ family) ∧
  ∃ l, siblings family mum = OK l ∧
       ∀ r, r ∈ l → ∃ parent, parent_of family mum parent ∧
                              r ∈ children family parent.
Proof.
  assert (Hm : mum ∈ family) by compute_done.
  split.
  { by split_and!; [apply family_integrity|apply family_gender_consistent|]. }
  destruct (siblings_are_children_of_parents family mum family_integrity
              family_gender_consistent Hm) as (l & Hl & Hin).
  exists l. split; [done|]. intros r Hr. by apply Hin in Hr as [_ ?].
Defined.

(** ** The order of children and siblings *)

#[local] Instance born_before_total : Total born_before.
Proof.
  intros p q. unfold born_before, date_le.
  destruct (date_of_birth p), (date_of_birth q); try tauto. lia.
Qed.

#[local] Instance born_before_trans : Transitive born_before.
Proof.
  intros p q r. unfold born_before, date_le.
  destruct (date_of_birth p), (date_of_birth q), (date_of_birth r);
    try tauto. lia.
Qed.

Lemma StronglySorted_lookup {A} (R : relation A) l i j x y :
  StronglySorted R l → (i < j)%nat → l !! i = Some x → l !! j = Some y → R x y.
Proof.
  intros Hs. revert i j. induction Hs as [|a l Hs IH Hall]; intros i j Hij Hi Hj.
  - done.
  - destruct j as [|j]; [lia|]. simpl in Hj. destruct i as [|i].
    + injection Hi as <-. rewrite Forall_forall in Hall.
      apply Hall, list_elem_of_lookup. eauto.
    + simpl in Hi. apply (IH i j); [lia|done..].
Qed.

Lemma order_by_dated l i j x y bx by_ :
  (i < j)%nat →
  order_by_date_of_birth l !! i = Some x →
  order_by_date_of_birth l !! j = Some y →
  date_of_birth x = Some bx → date_of_birth y = Some by_ → date_le bx by_.
Proof.
  intros Hij Hi Hj Hx Hy.
  pose proof (StronglySorted_lookup born_before _ i j x y
                (StronglySorted_merge_sort born_before l) Hij Hi Hj) as H.
  unfold born_before in H. by rewrite Hx, Hy in H.
Qed.

(** X7: [children] lists the children by date of birth, and so does
    [siblings] the siblings: of two listed persons with known dates of birth,
    the one listed first was not born later. *)
Theorem children_siblings_by_date_of_birth
    (g : Store) (p : Person) (i j : nat) (x y : Person) (bx by_ : date) :
  (i < j)%nat →
  date_of_birth x = Some bx → date_of_birth y = Some by_ →
  (children g p !! i = Some x → children g p !! j = Some y → date_le bx by_) ∧
  (∀ l, siblings g p = OK l → l !! i = Some x → l !! j = Some y →
        date_le bx by_).
Proof.
  intros Hij Hx Hy. split.
  - unfold children. intros Hi Hj. by eapply order_by_dated.
  - intros l Hl Hi Hj. unfold siblings in Hl.
    apply bind_OK in Hl as (f & _ & Hl). apply bind_OK in Hl as (m & _ & [= <-]).
    by eapply order_by_dated.
Qed.

Lemma children_siblings_by_date_of_birth_witness :
  ((0 < 1)%nat ∧
   date_of_birth (born (Date 1970 3 2) mum) = Some (Date 1970 3 2) ∧
   date_of_birth (born (Date 1972 5 1) aunt) = Some (Date 1972 5 1)) ∧
  children dated nan = [born (Date 1970 3 2) mum; born (Date 1972 5 1) aunt] ∧
  date_le (Date 1970 3 2) (Date 1972 5 1).
Proof.
  assert (H01 : (0 < 1)%nat) by lia.
  split; [done|]. split; [reflexivity|].
  by apply (children_siblings_by_date_of_birth dated nan 0 1
              (born (Date 1970 3 2) mum) (born (Date 1972 5 1) aunt)
              (Date 1970 3 2) (Date 1972 5 1) H01 eq_refl eq_refl).
Defined.

(** ** Person.descendants, further *)

(** X8: the list of descendants begins with the children in their order,
    and holds the descendants of every person it holds. *)
Theorem descendants_transitive
    (limit limit' : nat) (g : Store) (p q : Person) (l l' : list Person) :
  descendants limit g p = OK l →
  children g p `prefix_of` l ∧
  (q ∈ l → descendants limit' g q = OK l' → ∀ x, x ∈ l' → x ∈ l).
Proof.
  intros Hl. split.
  - destruct limit as [|n]; [done|].
    apply descendants_OK in Hl as (ls & _ & ->). by eexists.
  - intros Hq Hl' x Hx.
    apply (elem_of_descendants _ _ _ _ q Hl) in Hq as [n Hn].
    apply (elem_of_descendants _ _ _ _ x Hl') in Hx as [m Hm].
    apply (elem_of_descendants _ _ _ _ x Hl). exists (n + S m)%nat.
    apply (descent_app _ _ _ _ _ _ Hn Hm).
Qed.

Lemma descendants_transitive_witness :
  descendants 10 family nan = OK [mum; aunt; kid; dad; kid] ∧
  children family nan `prefix_of` [mum; aunt; kid; dad; kid] ∧
  (aunt ∈ [mum; aunt; kid; dad; kid] →
   descendants 10 family aunt = OK [dad; kid] →
   ∀ x, x ∈ [dad; kid] → x ∈ [mum; aunt; kid; dad; kid]).
Proof.
  assert (H : descendants 10 family nan = OK [mum; aunt; kid; dad; kid])
    by reflexivity.
  split; [done|].
  apply (descendants_transitive 10 10 family nan aunt _ [dad; kid] H).
Defined.

(** ** Ancestors and descendants *)

(** X9: when the genders agree with the links, ancestor and descendant are
    converse: [a] is a key of the walk from [p] exactly when [p] is in the
    list of descendants of [a]. *)
Theorem ancestor_descendant_converse
    (limit limit' : nat) (g : Store) (p a : Person) (d : dict)
    (l : list Person) :
  integrity g → gender_consistent g → p ∈ g → a ∈ g →
  _ancestor_distances limit g p 0 = OK d → descendants limit' g a = OK l →
  (a ∈ keys d ↔ p ∈ l) ∧ (is_Some (d !! pk a) ↔ p ∈ l).
Proof.
  intros Hi Hgc Hp Ha Hd Hl.
  assert (Hconv : a ∈ keys d ↔ p ∈ l).
  { rewrite (elem_of_walk_keys _ _ _ _ _ a Hd), (elem_of_descendants _ _ _ _ p Hl).
    split; intros [n Hn]; exists n.
    - by apply chain_descent.
    - apply descent_chain; [by destruct Hi|done..]. }
  split; [done|]. rewrite <- Hconv, elem_of_keys. split.
  - intros [[a' v] Hk].
    destruct (walk_recorded _ _ _ _ _ Hd _ _ _ Hk) as (Hg & _).
    rewrite (get_elem g a) in Hg by (by destruct Hi || done).
    injection Hg as <-. eauto.
  - intros (k & v & Hk).
    destruct (walk_recorded _ _ _ _ _ Hd _ _ _ Hk) as (Hg & _).
    apply get_Some in Hg as [_ <-]. eauto.
Qed.

Lemma ancestor_descendant_converse_witness :
  (integrity family ∧ gender_consistent family ∧ kid ∈ family ∧ aunt ∈ family) ∧
  ∃ d, _ancestor_distances 10 family kid 0 = OK d ∧
       descendants 10 family aunt = OK [dad; kid] ∧
       (aunt ∈ keys d ↔ kid ∈ [dad; kid]).
Proof.
  assert (Hk : kid ∈ family) by compute_done.
  assert (Ha : aunt ∈ family) by compute_done.
  split.
  { by split_and!; [apply family_integrity|apply family_gender_consistent|..]. }
  destruct (walk_total 10 family kid 0 family_integrity Hk) as [d Hd].
  { intros b n Hn. pose proof (chain_bound _ _ _ _ family_acyclic Hk Hn).
    simpl in *. lia. }
  exists d. split_and!; [done|reflexivity|].
  by apply (ancestor_descendant_converse 10 10 family kid aunt d [dad; kid]
              family_integrity family_gender_consistent Hk Ha Hd eq_refl).
Defined.

(** ** The offset of the ancestor walk *)

Lemma shift_setitem c (d : dict) k v :
  shift c <$> dict_setitem d k v = dict_setitem (shift c <$> d) k (v + c).
Proof.
  apply map_eq. intros j.
  rewrite lookup_fmap, !lookup_dict_setitem, !lookup_fmap.
  case_decide; [|done]. by destruct (d !! pk k) as [[a w]|].
Qed.

Lemma shift_update c (d o : dict) :
  shift c <$> dict_update d o = dict_update (shift c <$> d) (shift c <$> o).
Proof.
  apply map_eq. intros j.
  rewrite lookup_fmap, !lookup_dict_update, !lookup_fmap.
  by destruct (o !! j) as [[a w]|], (d !! j) as [[a' w']|].
Qed.

Lemma walk_shift limit g p offset c :
  _ancestor_distances limit g p (offset + c)
  = _ancestor_distances limit g p offset ≫= λ d : dict, OK (shift c <$> d).
Proof.
  revert p offset. induction limit as [|n IH]; intros p offset; [done|].
  rewrite !walk_S.
  assert (Hv : ∀ a fk, visit n g (offset + c) (shift c <$> a) fk
               = visit n g offset a fk ≫= λ d : dict, OK (shift c <$> d)).
  { intros a fk. unfold visit. destruct (fetch g fk) as [[q|]|e]; simpl; [|done..].
    replace (offset + c + 1) with (offset + 1 + c) by lia. rewrite IH.
    destruct (_ancestor_distances n g q (offset + 1)) as [sub|e]; simpl; [|done].
    by rewrite shift_update, shift_setitem. }
  pose proof (Hv ∅ (mother p)) as Hm. rewrite fmap_empty in Hm. rewrite Hm.
  destruct (visit n g offset ∅ (mother p)) as [a1|e]; simpl; [|done].
  apply Hv.
Qed.

(** X10: the offset only translates the distances: called with offset [c],
    the walk returns the dictionary of the call with offset 0 with [c] added
    to every distance, and raises what that call raises. *)
Theorem ancestor_distances_offset (limit : nat) (g : Store) (p : Person) (c : Z) :
  _ancestor_distances limit g p c
  = _ancestor_distances limit g p 0 ≫= λ d : dict, OK (shift c <$> d).
Proof. apply (walk_shift limit g p 0 c). Qed.

(** ** Person.relatives, further *)

(** X11: in an acyclic table whose genders agree with the links, the body
    of [relatives], run on the key set of the ancestor walk, pairs every
    ancestor, every descendant and every sibling of the person with a
    relationship (persons compared by primary key). *)
Theorem relatives_hold_kin
    (dr : Store → Person → Person → string) (limit : nat) (g : Store)
    (self : Person) :
  integrity g → gender_consistent g → acyclic g → self ∈ g →
  (length g ≤ limit)%nat →
  ∃ d rs ds sibs,
    _ancestor_distances limit g self 0 = OK d ∧
    relatives_from dr limit g self (keys d) = OK rs ∧
    descendants limit g self = OK ds ∧
    siblings g self = OK sibs ∧
    ids (keys d) ∪ ids ds ∪ ids sibs ⊆ ids (fst <$> rs).
Proof.
  intros Hi Hgc Hac Hs Hlen.
  destruct (relatives_sets dr limit g self Hi Hgc Hac Hs Hlen)
    as (d & rs & b & ds & Hd & Hrs & Hb & Hds & Heq & _ & _ & _ & Hself).
  destruct (siblings_children g self Hi Hgc Hs) as (sibs & Hsibs & Hin).
  exists d, rs, ds, sibs. split_and!; [done..|].
  pose proof (λ a, elem_of_walk_keys _ _ _ _ _ a Hd) as Hanc.
  assert (Hancg : Forall (λ p, p ∈ g) (keys d)).
  { apply Forall_forall. intros a [n Hn]%Hanc. by eapply chain_elem. }
  destruct (descendants_each limit g _ Hi Hac Hlen Hancg) as [dsA HdsA].
  destruct (brute_force_OK limit g self _ _ HdsA) as (b' & Hb' & Hdom).
  rewrite Hb in Hb'. injection Hb' as <-.
  rewrite Heq, Hdom. intros k [[Hk|Hk]%elem_of_union|Hk]%elem_of_union.
  - apply elem_of_union_l, elem_of_difference. split; [set_solver|].
    intros ->%elem_of_singleton. done.
  - by apply elem_of_union_r.
  - apply elem_of_ids in Hk as (r & Hr & <-).
    apply Hin in Hr as (Hne & par & Hpar & Hc).
    apply elem_of_union_l, elem_of_difference. split; [|set_solver].
    apply elem_of_union_r, (ids_concat_descendants _ _ _ _ _ HdsA).
    exists par, r, 0%nat. split_and!; [|by (econstructor;
      [by apply elem_of_children|constructor])|done].
    apply Hanc. exists 0%nat. econstructor; [done|constructor].
Qed.

Lemma relatives_hold_kin_witness :
  (integrity family ∧ gender_consistent family ∧ acyclic family ∧
   mum ∈ family ∧ (length family ≤ 10)%nat) ∧
  ∃ d rs, _ancestor_distances 10 family mum 0 = OK d ∧
          relatives_from (λ _ _ _, "") 10 family mum (keys d) = OK rs ∧
          pk aunt ∈ ids (fst <$> rs).
Proof.
  assert (Hm : mum ∈ family) by compute_done.
  assert (Hl : (length family ≤ 10)%nat) by (simpl; lia).
  split.
  { by split_and!; [apply family_integrity|apply family_gender_consistent|
                    apply family_acyclic|..]. }
  destruct (relatives_hold_kin (λ _ _ _, "") 10 family mum family_integrity
              family_gender_consistent family_acyclic Hm Hl)
    as (d & rs & ds & sibs & Hd & Hrs & _ & Hsibs & Hsub).
  exists d, rs. split_and!; [done..|]. apply Hsub, elem_of_union_r.
  assert (siblings family mum = OK [aunt]) as H by reflexivity.
  rewrite Hsibs in H. injection H as ->. apply elem_of_ids. exists aunt.
  split; [by left|done].
Defined.

Lemma descent_last g p x n :
  descent g p x (S n) → ∃ c, descent g p c n ∧ child_of g c x.
Proof.
  revert p. induction n as [|n IH]; intros p (c1 & Hpc & Hcx)%descent_S_inv.
  - apply descent_0_inv in Hcx as ->. exists p. split; [constructor|done].
  - destruct (IH c1 Hcx) as (c & Hc & Hx). exists c. split; [|done].
    by econstructor.
Qed.

(** X12: when every recorded parent of a person has the gender the link
    contradicts (a man as mother, a woman as father), no walk down from the
    ancestors reaches the person, and the body of [relatives], run on the key
    set of the ancestor walk, ends in [KeyError] at [relatives.remove(self)]. *)
Theorem relatives_KeyError
    (dr : Store → Person → Person → string) (limit : nat) (g : Store)
    (self : Person) :
  integrity g → acyclic g → self ∈ g → (length g ≤ limit)%nat →
  mother self ≠ None ∨ father self ≠ None →
  has_gender g (mother self) Male → has_gender g (father self) Female →
  ∃ d, _ancestor_distances limit g self 0 = OK d ∧
       relatives_from dr limit g self (keys d) = Raise KeyError.
Proof.
  intros Hi Hac Hs Hlen Hpar Hgm Hgf.
  destruct (walk_total limit g self 0 Hi Hs) as [d Hd].
  { intros a n Hn. pose proof (chain_bound _ _ _ _ Hac Hs Hn). lia. }
  exists d. split; [done|].
  pose proof (λ a, elem_of_walk_keys _ _ _ _ _ a Hd) as Hanc.
  assert (Hancg : Forall (λ p, p ∈ g) (keys d)).
  { apply Forall_forall. intros a [n Hn]%Hanc. by eapply chain_elem. }
  (* a parent, and a root above it *)
  assert (∃ par, parent_of g self par) as [par Hp].
  { destruct (integrity_resolves _ _ Hi Hs) as [Hrm Hrf].
    destruct Hpar as [Hne|Hne].
    - destruct (mother self) as [k|] eqn:Hk; [|done]. destruct Hrm as [q Hq].
      pose proof (get_Some _ _ _ Hq) as [_ <-]. exists q. split; auto.
    - destruct (father self) as [k|] eqn:Hk; [|done]. destruct Hrf as [q Hq].
      pose proof (get_Some _ _ _ Hq) as [_ <-]. exists q. split; auto. }
  assert (Hc1 : chain g self par 1) by (econstructor; [done|constructor]).
  destruct (top_exists g self (length g) par 1 Hi Hac Hs Hc1) as (r & j & Hr & Hnull);
    [lia|].
  assert (Hrin : r ∈ filter missing_a_parent (keys d)).
  { apply list_elem_of_filter. split; [done|]. apply Hanc. exists j.
    apply (chain_app _ _ _ _ _ _ Hc1 Hr). }
  pose proof (root_ancestors_OK g self _ Hi Hancg) as Hroots.
  destruct (filter missing_a_parent (keys d)) as [|r0 rest] eqn:Hf;
    [by apply not_elem_of_nil in Hrin|].
  assert (Hsub : ∀ x, x ∈ r0 :: rest → x ∈ keys d).
  { intros x Hx. rewrite <- Hf in Hx. by apply list_elem_of_filter in Hx as [_ ?]. }
  assert (Hrootsg : Forall (λ p, p ∈ g) (r0 :: rest)).
  { apply Forall_forall. intros x Hx%Hsub. rewrite Forall_forall in Hancg. auto. }
  destruct (descendants_each limit g _ Hi Hac Hlen Hrootsg) as [dsR HdsR].
  remember (r0 :: rest) as roots eqn:Hroots_eq. clear Hroots_eq.
  unfold relatives_from. rewrite Hroots. simpl.
  assert (for_each (λ relatives ancestor, ds ← descendants limit g ancestor;
                      OK (Set_update relatives ds))
            roots (Set_update ∅ roots)
          = OK (foldl Set_update (Set_update ∅ roots) dsR)) as ->.
  { apply for_each_OK. eauto. }
  simpl. unfold Set_remove.
  assert (foldl Set_update (Set_update ∅ roots) dsR !! pk self = None)
    as ->; [|done].
  apply not_elem_of_dom.
  rewrite dom_foldl_Set_update, dom_Set_update, dom_empty_L.
  intros [Hk|[Hk|Hk]%elem_of_union]%elem_of_union; [| |set_solver].
  - apply (ids_concat_descendants _ _ _ _ _ HdsR) in Hk
      as (x & y & n & Hx & Hn & Hpk).
    rewrite Forall_forall in Hrootsg. pose proof (Hrootsg x Hx) as Hxg.
    pose proof (descent_elem _ _ _ _ Hxg Hn) as Hyg.
    apply (pk_inj g) in Hpk; [|by destruct Hi|done..]. subst y.
    apply descent_last in Hn as (c & Hxc & [_ Hcs]).
    pose proof (descent_elem _ _ _ _ Hxg Hxc) as Hcg.
    pose proof (get_elem g c (unique_pk _ Hi) Hcg) as Hgc.
    destruct (gender c) eqn:Hgen.
    + rewrite Hcs in Hgf. simpl in Hgf. rewrite Hgc in Hgf. simpl in Hgf. congruence.
    + rewrite Hcs in Hgm. simpl in Hgm. rewrite Hgc in Hgm. simpl in Hgm. congruence.
  - apply elem_of_ids in Hk as (x & Hx%Hsub & Hpk).
    apply (walk_keys_not_self _ _ _ _ _ Hi Hac Hs Hd), elem_of_ids. eauto.
Qed.

Lemma relatives_KeyError_witness :
  (integrity odd ∧ acyclic odd ∧ child ∈ odd ∧ (length odd ≤ 10)%nat ∧
   mother child ≠ None ∧ has_gender odd (mother child) Male ∧
   has_gender odd (father child) Female) ∧
  ∃ d, _ancestor_distances 10 odd child 0 = OK d ∧
       relatives_from (λ _ _ _, "") 10 odd child (keys d) = Raise KeyError.
Proof.
  assert (Hi : integrity odd) by (split; compute_done).
  assert (Hac : acyclic odd) by (apply (ranked_acyclic Z.to_nat); compute_done).
  assert (Hc : child ∈ odd) by compute_done.
  assert (Hl : (length odd ≤ 10)%nat) by (simpl; lia).
  assert (Hm : mother child ≠ None) by done.
  assert (Hgm : has_gender odd (mother child) Male) by compute_done.
  assert (Hgf : has_gender odd (father child) Female) by compute_done.
  split; [done|].
  apply (relatives_KeyError (λ _ _ _, "") 10 odd child Hi Hac Hc Hl
           (or_introl Hm) Hgm Hgf).
Defined.

(** ** The annotated lists *)

Lemma annotating_OK (D : Person → result string) ds acc l :
  for_each (λ annotated x, r ← D x; OK (annotated ++ [(x, r)])) ds acc = OK l ↔
  ∃ es, Forall2 (λ x e, e.1 = x ∧ D x = OK e.2) ds es ∧ l = acc ++ es.
Proof.
  revert acc. induction ds as [|x ds IH]; intros acc; simpl.
  - split.
    + intros [= <-]. exists []. split; [constructor|by rewrite app_nil_r].
    + intros (es & ->%Forall2_nil_inv_l & ->). by rewrite app_nil_r.
  - rewrite bind_OK. split.
    + intros (acc' & (r & Hr & [= <-])%bind_OK & (es & Hes & ->)%IH).
      exists ((x, r) :: es). split; [by constructor|by rewrite <- app_assoc].
    + intros (es & ([y r] & es' & [Hy Hr] & Hes & ->)%Forall2_cons_inv_l & ->).
      simpl in Hy, Hr. subst y. exists (acc ++ [(x, r)]). split.
      * apply bind_OK. by exists r.
      * apply IH. exists es'. split; [done|by rewrite <- app_assoc].
Qed.

Lemma annotating_Raise (D : Person → result string) ds acc e :
  for_each (λ annotated x, r ← D x; OK (annotated ++ [(x, r)])) ds acc = Raise e ↔
  ∃ i x, ds !! i = Some x ∧ D x = Raise e ∧
         ∀ j y, (j < i)%nat → ds !! j = Some y → ∃ s, D y = OK s.
Proof.
  revert acc. induction ds as [|x ds IH]; intros acc; simpl.
  - split; [done|]. by intros (i & x & Hi & _).
  - destruct (D x) as [r|e'] eqn:Hx; simpl.
    + rewrite IH. split.
      * intros (i & y & Hi & Hy & Hbefore). exists (S i), y.
        split_and!; [done..|]. intros [|j] z Hj Hz; simpl in Hz.
        -- injection Hz as <-. eauto.
        -- apply (Hbefore j); [lia|done].
      * intros ([|i] & y & Hi & Hy & Hbefore); simpl in Hi.
        -- injection Hi as <-. congruence.
        -- exists i, y. split_and!; [done..|]. intros j z Hj Hz.
           apply (Hbefore (S j)); [lia|done].
    + split.
      * intros [= <-]. exists 0%nat, x. split_and!; [done..|]. lia.
      * intros ([|i] & y & Hi & Hy & Hbefore); simpl in Hi.
        -- injection Hi as <-. congruence.
        -- destruct (Hbefore 0%nat x) as [s Hs]; [lia|done|congruence].
Qed.

(** X13: [annotated_descendants] asks for the description of each
    descendant in the order of [descendants], repetitions included: what
    [descendants] raises it raises; when [descendants] returns, it returns
    the descendants paired position by position with their descriptions if
    every description is returned, and raises what the first failing
    description raises otherwise; in an acyclic table it returns exactly
    when the description of every person below [self] is returned. *)
Theorem annotated_descendants_first_raise
    (dr : Store → Person → Person → result string) (limit : nat) (g : Store)
    (self : Person) :
  (∀ e, descendants limit g self = Raise e →
        annotated_descendants dr limit g self = Raise e) ∧
  (∀ ds, descendants limit g self = OK ds →
     (∀ l, annotated_descendants dr limit g self = OK l ↔
           Forall2 (λ x e, e.1 = x ∧ dr g self x = OK e.2) ds l) ∧
     (∀ e, annotated_descendants dr limit g self = Raise e ↔
           ∃ i x, ds !! i = Some x ∧ dr g self x = Raise e ∧
                  ∀ j y, (j < i)%nat → ds !! j = Some y →
                         ∃ s, dr g self y = OK s)) ∧
  (integrity g → acyclic g → self ∈ g → (length g ≤ limit)%nat →
   (∃ l, annotated_descendants dr limit g self = OK l) ↔
   ∀ x n, descent g self x (S n) → ∃ s, dr g self x = OK s).
Proof.
  unfold annotated_descendants. split_and!.
  - by intros e ->.
  - intros ds ->. simpl. split.
    + intros l. rewrite annotating_OK. split.
      * by intros (es & Hes & ->).
      * intros Hl. by exists l.
    + intros e. apply annotating_Raise.
  - intros Hi Hac Hs Hlen. destruct (descendants_total limit g self) as [ds Hds].
    { intros x n Hn. pose proof (descent_bound _ _ _ _ Hi Hac Hs Hn). lia. }
    rewrite Hds. simpl. split.
    + intros (l & (es & Hes & _)%annotating_OK) x n Hn.
      assert (x ∈ ds) as [i Hi']%list_elem_of_lookup.
      { apply (elem_of_descendants _ _ _ _ x Hds). eauto. }
      destruct (Forall2_lookup_l _ _ _ _ _ Hes Hi') as (e & _ & _ & He). eauto.
    + intros Hall.
      assert (Forall (λ x, ∃ s, dr g self x = OK s) ds) as Hds'.
      { apply Forall_forall. intros x Hx.
        apply (elem_of_descendants _ _ _ _ x Hds) in Hx as [n Hn]. eauto. }
      clear Hds Hall.
      assert (∃ es, Forall2 (λ x e, e.1 = x ∧ dr g self x = OK e.2) ds es) as [es Hes].
      { induction Hds' as [|x ds [s Hs'] _ [es IH]]; [by exists []|].
        exists ((x, s) :: es). by constructor. }
      exists es. apply annotating_OK. by exists es.
Qed.

Lemma annotated_descendants_first_raise_witness :
  (integrity family ∧ acyclic family ∧ nan ∈ family ∧
   (length family ≤ 10)%nat) ∧
  descendants 10 family nan = OK [mum; aunt; kid; dad; kid] ∧
  annotated_descendants
    (λ _ _ x, if bool_decide (pk x = 4) then Raise KeyError else
              if bool_decide (pk x = 5) then Raise (Exception "TypeError")
              else OK "kin")
    10 family nan = Raise (Exception "TypeError") ∧
  ∃ l, annotated_descendants (λ _ _ _, OK "kin") 10 family nan = OK l.
Proof.
  assert (Hn : nan ∈ family) by compute_done.
  assert (Hf : (length family ≤ 10)%nat) by (simpl; lia).
  assert (Hds : descendants 10 family nan = OK [mum; aunt; kid; dad; kid])
    by (by vm_compute).
  split; [by split_and!; [apply family_integrity|apply family_acyclic|..]|].
  split; [done|]. split.
  - destruct (annotated_descendants_first_raise
                (λ _ _ x, if bool_decide (pk x = 4) then Raise KeyError else
                          if bool_decide (pk x = 5)
                          then Raise (Exception "TypeError") else OK "kin")
                10 family nan) as (_ & Hret & _).
    destruct (Hret _ Hds) as [_ Hraise]. apply Hraise.
    exists 2%nat, kid. split_and!; [done..|].
    intros j y Hj Hy. destruct j as [|[|j]]; [| |lia];
      injection Hy as <-; by exists "kin".
  - destruct (annotated_descendants_first_raise (λ _ _ _, OK "kin")
                10 family nan) as (_ & _ & Hall).
    apply (Hall family_integrity family_acyclic Hn Hf). eauto.
Defined.

(** X14: [annotated_ancestors] starts with [self.ancestors()] and ends as
    that call does: in [AttributeError], for every person and table. *)
Theorem annotated_ancestors_raises
    (dr : Store → Person → Person → string) (limit : nat) (g : Store)
    (self : Person) :
  annotated_ancestors dr limit g self
  = Raise (AttributeError "ancestor_distances").
Proof. reflexivity. Qed.

(** ** Person.spouses *)

Lemma comprehension_OK {A B} (f : A → result B) l r :
  comprehension f l = OK r ↔ Forall2 (λ x y, f x = OK y) l r.
Proof.
  revert r. induction l as [|x l IH]; intros r; simpl.
  - split; [intros [= <-]; constructor | by intros ->%Forall2_nil_inv_l].
  - rewrite bind_OK. split.
    + intros (y & Hy & (rest & Hrest & [= <-])%bind_OK).
      constructor; [done|by apply IH].
    + intros (y & rest & Hy & Hrest & ->)%Forall2_cons_inv_l.
      exists y. split; [done|]. apply bind_OK. exists rest.
      split; [by apply IH|done].
Qed.

Lemma comprehension_Raise {A B} (f : A → result B) l e :
  comprehension f l = Raise e → ∃ x, x ∈ l ∧ f x = Raise e.
Proof.
  induction l as [|x l IH]; simpl; [done|].
  intros [Hx | (y & _ & [Hr | (? & _ & [=])]%bind_Raise)]%bind_Raise.
  - exists x. split; [left|done].
  - destruct (IH Hr) as (x' & Hin & Hx'). exists x'. split; [by right|done].
Qed.

Lemma related_OK g k r : related g k = OK r ↔ get g k = Some r.
Proof. unfold related. destruct (get g k); naive_solver. Qed.

Lemma elem_of_comprehension {A B} (f : A → result B) l r y :
  comprehension f l = OK r → y ∈ r ↔ ∃ x, x ∈ l ∧ f x = OK y.
Proof.
  intros Hl%comprehension_OK. split.
  - intros [i Hi]%list_elem_of_lookup.
    destruct (Forall2_lookup_r _ _ _ _ _ Hl Hi) as (x & Hx & Hy).
    exists x. split; [apply list_elem_of_lookup; eauto|done].
  - intros (x & [i Hi]%list_elem_of_lookup & Hy).
    destruct (Forall2_lookup_l _ _ _ _ _ Hl Hi) as (y' & Hy' & Hxy).
    rewrite Hy in Hxy. injection Hxy as <-. apply list_elem_of_lookup. eauto.
Qed.

Lemma elem_of_spouses ms g p l x :
  spouses ms g p = OK l →
  x ∈ l ↔ ∃ m, m ∈ ms ∧ (spouse_key p m).1 = pk p ∧
               get g (spouse_key p m).2 = Some x.
Proof.
  unfold spouses, spouse_key, husband_of, wife_of.
  destruct (gender p); simpl; intros Hl;
    rewrite (elem_of_comprehension _ _ _ x Hl);
    setoid_rewrite list_elem_of_filter; setoid_rewrite related_OK;
    naive_solver.
Qed.

(** X15: between two rows of different gender of a table with unique keys,
    being a spouse is symmetric. *)
Theorem spouses_symmetric
    (ms : list Marriage) (g : Store) (p q : Person) (lp lq : list Person) :
  NoDup (pk <$> g) → p ∈ g → q ∈ g → gender p ≠ gender q →
  spouses ms g p = OK lp → spouses ms g q = OK lq →
  (q ∈ lp ↔ p ∈ lq).
Proof.
  intros Hnd Hp Hq Hne Hlp Hlq.
  rewrite (elem_of_spouses _ _ _ _ q Hlp), (elem_of_spouses _ _ _ _ p Hlq).
  unfold spouse_key.
  split; intros (m & Hm & Hk & Hx); exists m; (split; [done|]);
    apply get_Some in Hx as [_ Hx];
    destruct (gender p), (gender q); try done; simpl in *;
    (split; [done|]); rewrite Hk; by apply get_elem.
Qed.

Lemma spouses_symmetric_witness :
  (NoDup (pk <$> family) ∧ mum ∈ family ∧ dad ∈ family ∧
   gender mum ≠ gender dad ∧
   spouses [wedding] family mum = OK [dad] ∧
   spouses [wedding] family dad = OK [mum]) ∧
  (dad ∈ [dad] ↔ mum ∈ [mum]).
Proof.
  assert (Hnd : NoDup (pk <$> family)) by compute_done.
  assert (Hm : mum ∈ family) by compute_done.
  assert (Hd : dad ∈ family) by compute_done.
  assert (Hne : gender mum ≠ gender dad) by done.
  split; [by split_and!|].
  by apply (spouses_symmetric [wedding] family mum dad [dad] [mum] Hnd Hm Hd Hne).
Defined.

(** X16: [spouses] lists one person per marriage row that names the person
    in the role of the person's gender, divorced or not and the same spouse
    as often as married; it fails only with [DoesNotExist], when such a row
    points at no person. *)
Theorem spouses_per_marriage (ms : list Marriage) (g : Store) (p : Person) :
  (∀ l, spouses ms g p = OK l →
        length l = length (filter (λ m, (spouse_key p m).1 = pk p) ms)) ∧
  (∀ e, spouses ms g p = Raise e →
        e = DoesNotExist ∧
        ∃ m, m ∈ ms ∧ (spouse_key p m).1 = pk p ∧ get g (spouse_key p m).2 = None) ∧
  (Forall (λ m, is_Some (get g (husband m)) ∧ is_Some (get g (wife m))) ms →
   ∃ l, spouses ms g p = OK l).
Proof.
  unfold spouses, spouse_key, husband_of, wife_of. split_and!.
  - intros l. destruct (gender p); simpl; intros Hl%comprehension_OK;
      by apply Forall2_length in Hl.
  - intros e. destruct (gender p); simpl;
      intros (m & [Hk Hm]%list_elem_of_filter & Hr)%comprehension_Raise;
      unfold related in Hr;
      (destruct (get g _) eqn:Hg; [done|]); injection Hr as <-;
      (split; [done|]); by exists m.
  - intros Hall. rewrite Forall_forall in Hall.
    destruct (gender p); simpl.
    all: match goal with |- ∃ l, ?c = OK l => destruct c as [l|e] eqn:Hc end;
         [eauto|].
    all: apply comprehension_Raise in Hc as (m & [_ Hm]%list_elem_of_filter & Hr);
         destruct (Hall m Hm) as [[h Hh] [w Hw]]; unfold related in Hr;
         by rewrite ?Hh, ?Hw in Hr.
Qed.

(** ** Root ancestors, further *)

Lemma father_and_mother_false g p :
  father_and_mother g p = OK false → father p = None ∨ mother p = None.
Proof.
  unfold father_and_mother. intros (f & Hf & H)%bind_OK.
  apply fetch_OK in Hf as [[Hn ->] | (k & r & _ & _ & ->)]; [by left|].
  apply bind_OK in H as (m & Hm & [= Hb]).
  apply fetch_OK in Hm as [[Hn ->] | (k' & r' & _ & _ & ->)]; [by right|].
  apply bool_decide_eq_false in Hb. destruct Hb. eauto.
Qed.

Lemma without_father_and_mother_elem g l roots r :
  without_father_and_mother g l = OK roots → r ∈ roots →
  r ∈ l ∧ (father r = None ∨ mother r = None).
Proof.
  revert roots. induction l as [|p l IH]; intros roots; simpl.
  - intros [= <-] Hr. by apply not_elem_of_nil in Hr.
  - intros (b & Hb & (rest & Hrest & [= <-])%bind_OK)%bind_OK Hr.
    destruct b.
    + destruct (IH _ Hrest Hr) as [? ?]. split; [by right|done].
    + apply elem_of_cons in Hr as [->|Hr].
      * split; [left|by apply father_and_mother_false in Hb].
      * destruct (IH _ Hrest Hr) as [? ?]. split; [by right|done].
Qed.

(** X17: whatever list of ancestors it is given, line 117 never yields an
    empty list of roots: a root is the person itself or one of the given
    ancestors with the father or the mother unrecorded; and the line fails
    only with [DoesNotExist]. *)
Theorem root_ancestors_never_empty (g : Store) (self : Person)
    (ancestors : list Person) :
  (∀ roots, root_ancestors g self ancestors = OK roots →
     roots ≠ [] ∧
     ∀ r, r ∈ roots →
          r = self ∨ (r ∈ ancestors ∧ (father r = None ∨ mother r = None))) ∧
  (∀ e, root_ancestors g self ancestors = Raise e → e = DoesNotExist).
Proof.
  unfold root_ancestors. split.
  - intros roots (l & Hl & [= <-])%bind_OK. destruct l as [|r0 l'].
    + split; [done|]. intros r ->%list_elem_of_singleton. by left.
    + split; [done|]. intros r Hr. right.
      by apply (without_father_and_mother_elem g ancestors (r0 :: l')).
  - intros e [H | (? & _ & [=])]%bind_Raise. revert H. clear.
    induction ancestors as [|p l IH]; simpl; [done|].
    intros [Hb | (b & _ & [Hr | (? & _ & [=])]%bind_Raise)]%bind_Raise; [|by apply IH].
    unfold father_and_mother in Hb.
    apply bind_Raise in Hb as [Hf | (f & _ & Hm)]; [by eapply fetch_Raise|].
    destruct f; [|done].
    apply bind_Raise in Hm as [Hm | (? & _ & [=])]. by eapply fetch_Raise.
Qed.

(** ** The distances and the recursion limit *)

(** X18: in an acyclic table every distance the walk records lies between
    1 and the number of rows less one, and the dictionary has fewer keys
    than the table has rows. *)
Theorem ancestor_distances_bounds (limit : nat) (g : Store) (self : Person)
    (d : dict) :
  integrity g → acyclic g → self ∈ g →
  _ancestor_distances limit g self 0 = OK d →
  (∀ k a v, d !! k = Some (a, v) → 1 ≤ v < Z.of_nat (length g)) ∧
  (size d < length g)%nat.
Proof.
  intros Hi Hac Hs Hd. pose proof (walk_recorded _ _ _ _ _ Hd) as Hrec. split.
  - intros k a v Hk. destruct (Hrec _ _ _ Hk) as (_ & n & Hn & ->).
    pose proof (chain_bound _ _ _ _ Hac Hs Hn). lia.
  - assert (Hsub : dom d ⊆ ids g ∖ {[pk self]}).
    { intros k [[a v] Hk]%elem_of_dom.
      destruct (Hrec _ _ _ Hk) as (Hg & n & Hn & _).
      pose proof (get_Some _ _ _ Hg) as [Ha Hpk].
      apply elem_of_difference. split; [apply elem_of_ids; eauto|].
      intros ->%elem_of_singleton.
      apply (pk_inj g) in Hpk; [|by destruct Hi|done..]. subst a.
      by apply (Hac self n Hs). }
    apply subseteq_size in Hsub. rewrite size_dom in Hsub.
    assert (pk self ∈ ids g) by (apply elem_of_ids; eauto).
    assert (size (ids g) = length g).
    { unfold ids. rewrite size_list_to_set by by destruct Hi.
      apply length_fmap. }
    assert (size (ids g ∖ {[pk self]}) < size (ids g))%nat; [|lia].
    apply subset_size. set_solver.
Qed.

Lemma ancestor_distances_bounds_witness :
  (integrity family ∧ acyclic family ∧ kid ∈ family) ∧
  ∃ d, _ancestor_distances 10 family kid 0 = OK d ∧ (size d < 5)%nat.
Proof.
  assert (Hk : kid ∈ family) by compute_done.
  split; [by split_and!; [apply family_integrity|apply family_acyclic|]|].
  destruct (walk_total 10 family kid 0 family_integrity Hk) as [d Hd].
  { intros b n Hn. pose proof (chain_bound _ _ _ _ family_acyclic Hk Hn).
    simpl in *. lia. }
  exists d. split; [done|].
  by destruct (ancestor_distances_bounds 10 family kid d
                 family_integrity family_acyclic Hk Hd) as [_ ?].
Defined.

Lemma descendants_limit_S n g p l :
  descendants n g p = OK l → descendants (S n) g p = OK l.
Proof.
  revert p l. induction n as [|n IH]; intros p l; [done|].
  intros (ls & Hls & ->)%descendants_OK. apply descendants_OK.
  exists ls. split; [|done]. eapply Forall2_impl; [done|]. intros c s. apply IH.
Qed.

(** X19: the recursion limit decides only whether a traversal returns: a
    traversal that returns under one limit returns the same under every
    larger one. *)
Theorem traversals_limit_independent
    (n m : nat) (g : Store) (p : Person) (offset : Z) :
  (n ≤ m)%nat →
  (∀ d, _ancestor_distances n g p offset = OK d →
        _ancestor_distances m g p offset = OK d) ∧
  (∀ l, descendants n g p = OK l → descendants m g p = OK l).
Proof.
  induction 1 as [|m _ [IHw IHd]]; [done|]. split.
  - intros d Hd. by apply walk_limit_S, IHw.
  - intros l Hl. by apply descendants_limit_S, IHd.
Qed.

Lemma traversals_limit_independent_witness :
  (5 ≤ 1000)%nat ∧
  descendants 5 family nan = OK [mum; aunt; kid; dad; kid] ∧
  descendants 1000 family nan = OK [mum; aunt; kid; dad; kid].
Proof.
  assert (Hle : (5 ≤ 1000)%nat) by lia.
  split; [done|]. split; [reflexivity|].
  by apply (traversals_limit_independent 5 1000 family nan 0 Hle).
Defined.

(** ** Repetitions among children and siblings *)

Lemma NoDup_pk_filter (P : Person → Prop) `{∀ x, Decision (P x)} (g : Store) :
  NoDup (pk <$> g) → NoDup (pk <$> filter P g).
Proof.
  intros Hnd. induction g as [|x g IH]; [constructor|].
  rewrite fmap_cons in Hnd. apply NoDup_cons in Hnd as [Hx Hnd].
  rewrite filter_cons. case_decide; [|by apply IH].
  rewrite fmap_cons. apply NoDup_cons. split; [|by apply IH].
  intros Hin. apply Hx. apply list_elem_of_fmap in Hin as (y & -> & Hy).
  apply list_elem_of_filter in Hy as [_ Hy]. apply list_elem_of_fmap. eauto.
Qed.

(** X20: unlike [descendants], [children] and [siblings] list nobody twice
    when the primary keys are unique: a full sibling, who matches on the
    father and on the mother, is listed once. *)
Theorem children_siblings_NoDup (g : Store) (p : Person) :
  NoDup (pk <$> g) →
  NoDup (pk <$> children g p) ∧
  (∀ l, siblings g p = OK l → NoDup (pk <$> l)).
Proof.
  intros Hnd. split; [by apply NoDup_children|].
  intros l Hl. unfold siblings in Hl.
  apply bind_OK in Hl as (f & _ & Hl). apply bind_OK in Hl as (m & _ & [= <-]).
  rewrite order_by_Permutation. by apply NoDup_pk_filter.
Qed.

Lemma children_siblings_NoDup_witness :
  NoDup (pk <$> family) ∧
  siblings family mum = OK [aunt] ∧ NoDup (pk <$> [aunt]).
Proof.
  assert (Hnd : NoDup (pk <$> family)) by compute_done.
  split; [done|]. split; [reflexivity|].
  by apply (children_siblings_NoDup family mum Hnd).
Defined.
